(** * jaide_click: the command line front end of Jaide

    A shallow embedding of [jaide/jaide_click.py]: the command-name
    resolver of [AliasedGroup], the option validators, the output writer
    [write_out] and the [commit] and [compare] handlers.

    Python [str] values are Rocq strings (one byte per character, as in
    the Python 2 the script is written for); [ctx.obj] is a record; the
    command registry of a click group is a finite map from names to
    commands; console, files, device sessions and the worker pool make up
    an explicit world threaded through a state-and-exception monad. *)

From Stdlib Require Import Ascii ZArith Lia.
From Stdlib Require String.
From stdpp Require Import base list strings sorting gmap.

Local Open Scope stdpp_scope.

(** ** Python string operations used by the script *)

Module Str.

(** [s.startswith(p)] *)
Fixpoint startswith (s p : string) {struct p} : bool :=
  match p with
  | "" => true
  | String a p' =>
      match s with
      | "" => false
      | String b s' => if Ascii.eqb a b then startswith s' p' else false
      end
  end.

(** [s[n:]] *)
Fixpoint drop (n : nat) (s : string) : string :=
  match n with
  | 0 => s
  | S n' => match s with "" => "" | String _ s' => drop n' s' end
  end.

(** [s[:n]] *)
Fixpoint take (n : nat) (s : string) : string :=
  match n with
  | 0 => ""
  | S n' => match s with "" => "" | String c s' => String c (take n' s') end
  end.

(** [s.partition(sep)] when [sep] occurs in [s]: the text before its
    first occurrence and the text after it; [None] when it does not
    occur. *)
Fixpoint partition (sep s : string) : option (string * string) :=
  if startswith s sep then Some ("", drop (String.length sep) s)
  else match s with
       | "" => None
       | String c s' =>
           match partition sep s' with
           | Some (before, after) => Some (String c before, after)
           | None => None
           end
       end.

(** [s.split(sep)] for a non-empty [sep] (Python raises [ValueError] on
    an empty separator; the script only splits on literals).  The
    scan restarts after each occurrence; every occurrence consumes at
    least one character, so [length s] rounds are enough. *)
Fixpoint split_fuel (fuel : nat) (sep s : string) : list string :=
  match fuel with
  | 0 => [s]
  | S fuel' =>
      match partition sep s with
      | None => [s]
      | Some (before, after) => before :: split_fuel fuel' sep after
      end
  end.

Definition split (sep s : string) : list string :=
  split_fuel (String.length s) sep s.

(** [s.split(sep)[0]] for a non-empty [sep]: [s] up to the first
    occurrence of [sep], all of [s] when there is none. *)
Definition upto (sep s : string) : string :=
  match partition sep s with
  | Some (before, _) => before
  | None => s
  end.

(** [ch in s] for a one-character [ch] *)
Fixpoint mem (ch : ascii) (s : string) : bool :=
  match s with
  | "" => false
  | String c s' => Ascii.eqb c ch || mem ch s'
  end.

(** Whitespace of [str.strip()]: space, tab, newline, return, vertical
    tab and form feed. *)
Definition is_space (c : ascii) : bool := Ascii.is_space c.

Fixpoint lstrip (s : string) : string :=
  match s with
  | "" => ""
  | String c s' => if is_space c then lstrip s' else s
  end.

Fixpoint rstrip (s : string) : string :=
  match s with
  | "" => ""
  | String c s' =>
      match rstrip s' with
      | "" => if is_space c then "" else String c ""
      | r => String c r
      end
  end.

(** [s.strip()] *)
Definition strip (s : string) : string := rstrip (lstrip s).

(** [s.rstrip(ch)] for a one-character argument *)
Fixpoint rstrip_char (ch : ascii) (s : string) : string :=
  match s with
  | "" => ""
  | String c s' =>
      match rstrip_char ch s' with
      | "" => if Ascii.eqb c ch then "" else String c ""
      | r => String c r
      end
  end.

(** [s.rfind(ch)] for a one-character argument: the highest index of
    [ch] in [s], or [-1]. *)
Fixpoint rfind (ch : ascii) (s : string) : Z :=
  match s with
  | "" => -1
  | String c s' =>
      let r := rfind ch s' in
      if (0 <=? r)%Z then (r + 1)%Z
      else if Ascii.eqb c ch then 0%Z else (-1)%Z
  end.

(** [c.lower()] on a byte: only [A]..[Z] change. *)
Definition lower_char (c : ascii) : ascii :=
  let n := nat_of_ascii c in
  if (65 <=? n)%nat && (n <=? 90)%nat then ascii_of_nat (n + 32) else c.

(** [s.lower()] *)
Fixpoint lower (s : string) : string :=
  match s with
  | "" => ""
  | String c s' => String (lower_char c) (lower s')
  end.

(** [sep.join(l)] *)
Fixpoint join (sep : string) (l : list string) : string :=
  match l with
  | [] => ""
  | [x] => x
  | x :: l' => x +:+ sep +:+ join sep l'
  end.

(** [sorted(l)] on strings: ascending byte-wise lexicographic order.
    The order is total and antisymmetric, so the sorted list is
    unique and the sorting algorithm does not show. *)
Definition sorted (l : list string) : list string := merge_sort String.le l.

(** [s.endswith(p)] *)
Fixpoint endswith (s p : string) : bool :=
  String.eqb s p ||
  match s with
  | "" => false
  | String _ s' => endswith s' p
  end.

(** [ch * n] for a one-character string *)
Fixpoint repeat (ch : ascii) (n : nat) : string :=
  match n with
  | 0 => ""
  | S n' => String ch (repeat ch n')
  end.

(** The character [chr(34)], written by code so that no literal of this
    file has to escape it. *)
Definition dquote : ascii := ascii_of_nat 34.

(** [s] between double quotes *)
Definition quoted (s : string) : string :=
  String dquote (s +:+ String dquote "").

(** [sub in s] *)
Definition contains (sub s : string) : Prop :=
  ∃ pre post, s = pre +:+ sub +:+ post.

End Str.

(** ** Exceptions and results *)

Inductive Exn :=
  | BadParameter (message : string)   (* click.BadParameter *)
  | UsageError (message : string)     (* click.UsageError, raised by ctx.fail *)
  | IndexError.                       (* list index out of range *)

Inductive result (A : Type) :=
  | Ret (a : A)
  | Raise (e : Exn).
Arguments Ret {A} a.
Arguments Raise {A} e.

(** ** AliasedGroup: command-name resolution *)

Section Resolver.
(** What a registered name maps to (a click [Command] object). *)
Context {Command : Type}.

(** A click [Group] keeps its subcommands in the dict [self.commands]. *)
Record Group := { commands : gmap string Command }.

(** [click.Group.get_command(self, ctx, cmd_name)]:
    [self.commands.get(cmd_name)]. *)
Definition Group_get_command (self : Group) (cmd_name : string)
  : option Command :=
  commands self !! cmd_name.

(** [click.Group.list_commands(self, ctx)]: [sorted(self.commands)]. *)
Definition list_commands (self : Group) : list string :=
  Str.sorted (elements (dom (commands self))).

(** [AliasedGroup.get_command(self, ctx, cmd_name)].  [Ret None] is
    Python's [return None] (click then reports an unknown command);
    [ctx.fail] raises [UsageError]. *)
Definition get_command (self : Group) (cmd_name : string)
  : result (option Command) :=
  match Group_get_command self cmd_name with
  | Some rv => Ret (Some rv)
  | None =>
      let matches :=
        filter (λ x, Str.startswith x cmd_name = true) (list_commands self) in
      match matches with
      | [] => Ret None
      | [m] => Ret (Group_get_command self m)
      | _ => Raise (UsageError ("Command ambiguous, could be: " +:+
                                Str.join ", " (Str.sorted matches)))
      end
  end.

(** The registered names that start with [cmd_name], as [get_command]
    lists them. *)
Definition candidates (self : Group) (cmd_name : string) : list string :=
  filter (λ x, Str.startswith x cmd_name = true) (list_commands self).
End Resolver.
Arguments Group Command : clear implicits.


(** ** os.path on POSIX, as far as [write_out] uses it *)

Module PosixPath.

(** [posixpath.split(p)]:
    [i = p.rfind('/') + 1; head, tail = p[:i], p[i:]];
    [if head and head != '/'*len(head): head = head.rstrip('/')]. *)
Definition split (p : string) : string * string :=
  let i := Z.to_nat (Str.rfind "/" p + 1) in
  let head := Str.take i p in
  let tail := Str.drop i p in
  let head :=
    if negb (String.eqb head "") &&
       negb (String.eqb head (Str.repeat "/" (String.length head)))
    then Str.rstrip_char "/" head
    else head in
  (head, tail).

(** [posixpath.join(a, b)]: an absolute [b] replaces [a]; otherwise
    [b] is appended, after a [/] unless [a] is empty or ends in one. *)
Definition join (a b : string) : string :=
  if Str.startswith b "/" then b
  else if String.eqb a "" || Str.endswith a "/" then a +:+ b
  else a +:+ "/" +:+ b.


End PosixPath.

(** ** Regular expressions, as far as [at_time_validate] uses them *)

Module Re.

(** Patterns without back-references or look-around: whether [re.search]
    finds a match is then a question about regular languages, decided
    here with derivatives. *)
Inductive regex :=
  | Void
  | Eps
  | Chr (p : ascii → bool)
  | Seq (r1 r2 : regex)
  | Alt (r1 r2 : regex)
  | Star (r : regex).

Fixpoint nullable (r : regex) : bool :=
  match r with
  | Void => false
  | Eps => true
  | Chr _ => false
  | Seq r1 r2 => nullable r1 && nullable r2
  | Alt r1 r2 => nullable r1 || nullable r2
  | Star _ => true
  end.

Fixpoint deriv (c : ascii) (r : regex) : regex :=
  match r with
  | Void => Void
  | Eps => Void
  | Chr p => if p c then Eps else Void
  | Seq r1 r2 =>
      if nullable r1 then Alt (Seq (deriv c r1) r2) (deriv c r2)
      else Seq (deriv c r1) r2
  | Alt r1 r2 => Alt (deriv c r1) (deriv c r2)
  | Star r1 => Seq (deriv c r1) (Star r1)
  end.

(** [re.match(r, s) is not None]: some prefix of [s] is in [r]. *)
Fixpoint match_prefix (r : regex) (s : string) : bool :=
  nullable r ||
  match s with
  | "" => false
  | String c s' => match_prefix (deriv c r) s'
  end.

(** [re.search(r, s) is not None]: a match starts at some position. *)
Fixpoint search (r : regex) (s : string) : bool :=
  match_prefix r s ||
  match s with
  | "" => false
  | String _ s' => search r s'
  end.

(** [lo <= c <= hi] on character codes *)
Definition in_range (lo hi c : ascii) : bool :=
  (nat_of_ascii lo <=? nat_of_ascii c)%nat &&
  (nat_of_ascii c <=? nat_of_ascii hi)%nat.

(** [[lo-hi]] *)
Definition range (lo hi : ascii) : regex := Chr (in_range lo hi).

(** [\d] on byte strings *)
Definition digit : regex := range "0" "9".

(** A literal character *)
Definition lit (ch : ascii) : regex := Chr (Ascii.eqb ch).

(** [r?] *)
Definition opt (r : regex) : regex := Alt r Eps.

(** [r{n}] *)
Fixpoint times (n : nat) (r : regex) : regex :=
  match n with
  | 0 => Eps
  | S n' => Seq r (times n' r)
  end.

(** [r{1,2}] *)
Definition once_or_twice (r : regex) : regex := Seq r (opt r).

(** The strings of a pattern. *)
Inductive lang : regex → string → Prop :=
  | lang_Eps : lang Eps ""
  | lang_Chr p c : p c = true → lang (Chr p) (String c "")
  | lang_Seq r1 r2 s1 s2 : lang r1 s1 → lang r2 s2 → lang (Seq r1 r2) (s1 +:+ s2)
  | lang_Alt_l r1 r2 s : lang r1 s → lang (Alt r1 r2) s
  | lang_Alt_r r1 r2 s : lang r2 s → lang (Alt r1 r2) s
  | lang_Star_nil r : lang (Star r) ""
  | lang_Star_app r s1 s2 :
      lang r s1 → lang (Star r) s2 → lang (Star r) (s1 +:+ s2).

End Re.

(** ** The context object, the world and the monad *)

(** [ctx.obj['conn']] *)
Record Conn := {
  username : string;
  password : string;
  port : Z;
  session_timeout : Z;
  connect_timeout : Z
}.

(** [ctx.obj]: a dict with the fixed keys ['hosts'], ['conn'], ['out']
    and ['at_time'].  ['out'] is [None] or the pair (mode, path). *)
Record Obj := {
  obj_hosts : list string;
  obj_conn : Conn;
  obj_out : option (string * string);
  obj_at_time : option string
}.

(** [o['out'] = v] *)
Definition set_out (v : option (string * string)) (o : Obj) : Obj :=
  {| obj_hosts := obj_hosts o; obj_conn := obj_conn o; obj_out := v;
     obj_at_time := obj_at_time o |}.

(** [o['at_time'] = v] *)
Definition set_at_time (v : option string) (o : Obj) : Obj :=
  {| obj_hosts := obj_hosts o; obj_conn := obj_conn o; obj_out := obj_out o;
     obj_at_time := v |}.

(** The function of [wrap] handed to [wrap.open_connection], with the
    argument list that goes with it. *)
Inductive WrapCall :=
  | wrap_commit (commands : string) (check sync : bool)
      (comment : option string) (confirm : option Z)
      (at_time : option string) (blank : bool)
  | wrap_compare (commands : string).

(** The arguments of one call of [wrap.open_connection], in the order of
    its parameters. *)
Record OpenArgs := {
  oa_ip : string;
  oa_username : string;
  oa_password : string;
  oa_function : WrapCall;
  oa_write : option (string * string);
  oa_connect_timeout : Z;
  oa_session_timeout : Z;
  oa_port : Z
}.

(** What [wrap.open_connection] returns and [write_out] takes: the pair
    of a destination ([None] or (mode, path)) and the output text. *)
Definition Output : Type := option (string * string) * string.

(** What reaches the terminal: calls of [click.echo] on standard output
    and of [color_utils.secho], oldest first. *)
Inductive ConsoleEvent :=
  | Echo (text : string) (nl : bool)
  | Secho (text : string) (style : option string).

(** Where a device session was opened. *)
Inductive Place := MainProcess | PoolWorker.

(** One call of [wrap.open_connection]: where it ran, its arguments and
    what it returned. *)
Record Session := {
  place : Place;
  args : OpenArgs;
  returned : Output
}.

(** A [multiprocessing.Pool]: its size and the tasks handed to
    [apply_async], oldest first.  Every task of this script is
    [wrap.open_connection] with [write_out] as callback, so a task is its
    argument tuple. *)
Record Pool := {
  processes : nat;
  tasks : list OpenArgs;
  closed : bool;
  joined : bool
}.

Section World.
(** The state of the network and the devices. *)
Context {Net : Type}.

Record World := {
  console : list ConsoleEvent;
  files : gmap string string;           (* content of each existing file *)
  open_error : string → option string;  (* [str(e)] of the IOError for a
                                           path that cannot be opened *)
  net : Net;
  sessions : list Session;              (* calls of wrap.open_connection,
                                           oldest first *)
  mp_pool : option Pool
}.

Definition M (A : Type) : Type := World → result A * World.

Definition ret {A} (a : A) : M A := λ w, (Ret a, w).
Definition raise {A} (e : Exn) : M A := λ w, (Raise e, w).
Definition bind {A B} (m : M A) (k : A → M B) : M B := λ w,
  match m w with
  | (Ret a, w') => k a w'
  | (Raise e, w') => (Raise e, w')
  end.

Definition with_console (f : list ConsoleEvent → list ConsoleEvent)
    (w : World) : World :=
  {| console := f (console w); files := files w;
     open_error := open_error w; net := net w; sessions := sessions w;
     mp_pool := mp_pool w |}.

Definition with_files (f : gmap string string → gmap string string)
    (w : World) : World :=
  {| console := console w; files := f (files w);
     open_error := open_error w; net := net w; sessions := sessions w;
     mp_pool := mp_pool w |}.

Definition with_net (n : Net) (w : World) : World :=
  {| console := console w; files := files w;
     open_error := open_error w; net := n; sessions := sessions w;
     mp_pool := mp_pool w |}.

Definition with_sessions (f : list Session → list Session)
    (w : World) : World :=
  {| console := console w; files := files w;
     open_error := open_error w; net := net w; sessions := f (sessions w);
     mp_pool := mp_pool w |}.

Definition with_pool (p : option Pool) (w : World) : World :=
  {| console := console w; files := files w;
     open_error := open_error w; net := net w; sessions := sessions w;
     mp_pool := p |}.
End World.
Arguments World Net : clear implicits.
Arguments M Net A : clear implicits.

Notation "x <- m ;; k" := (bind m (λ x, k))
  (at level 100, m at next level, right associativity).
Notation "m >> k" := (bind m (λ _, k))
  (at level 100, right associativity).


(** ** Primitive effects *)

Section Effects.
Context {Net : Type}.

(** [click.echo(text)] on standard output *)
Definition click_echo (text : string) : M Net unit := λ w,
  (Ret tt, with_console (λ c, c ++ [Echo text true]) w).

(** [secho(text, style)] of [color_utils] *)
Definition secho (text : string) (style : option string) : M Net unit := λ w,
  (Ret tt, with_console (λ c, c ++ [Secho text style]) w).

(** [open(path, 'a+b')]: [inl (str e)] when it raises [IOError e];
    otherwise the file exists afterwards and its handle is returned. *)
Definition open_append (path : string) : M Net (string + string) := λ w,
  match open_error w path with
  | Some e => (Ret (inl e), w)
  | None =>
      (Ret (inr path),
       with_files (λ fs, match fs !! path with
                         | Some _ => fs
                         | None => <[path := ""]> fs
                         end) w)
  end.

(** [click.echo(text, nl=False, file=out_file)] on a file opened for
    appending *)
Definition file_echo (out_file : string) (text : string) : M Net unit := λ w,
  (Ret tt,
   with_files (λ fs, <[out_file := default "" (fs !! out_file) +:+ text]> fs) w).

(** An expression that indexes lists: [None] is its [IndexError]. *)
Definition indexing {A} (o : option A) : M Net A :=
  match o with
  | Some x => ret x
  | None => raise IndexError
  end.

(** [for x in l: body(x)] *)
Fixpoint for_each {A} (l : list A) (body : A → M Net unit) : M Net unit :=
  match l with
  | [] => ret tt
  | x :: l' => body x >> for_each l' body
  end.

(** [[f(x) for x in l]], the calls made from left to right *)
Fixpoint map_m {A B} (f : A → M Net B) (l : list A) : M Net (list B) :=
  match l with
  | [] => ret []
  | x :: l' => y <- f x ;; ys <- map_m f l' ;; ret (y :: ys)
  end.
End Effects.

(** ** write_validate *)

Definition write_validate_arity_message : string :=
  "Expecting two arguments, one for how to output (s, single, m, multiple), and the second is a filepath where to put the output.".

Definition write_validate_mode_message : string :=
  "The first argument of the -w/--write option must specifies whether to write to one file per device, or all device output to a single file. Valid options are "
  +:+ Str.quoted "s" +:+ ", " +:+ Str.quoted "single" +:+ ", "
  +:+ Str.quoted "m" +:+ ", and " +:+ Str.quoted "multiple".

(** [write_validate(ctx, param, value)]: [value] is the tuple click built
    from the option's arguments, [("default", "default")] when the option
    was not given.  The result is [ctx.obj] after the call. *)
Definition write_validate (obj : Obj) (value : list string) : result Obj :=
  if bool_decide (value ≠ ["default"; "default"]) then
    match value !! 0, value !! 1 with
    | Some mode, Some dest_file =>
        if bool_decide (Str.lower mode ∉ ["s"; "single"; "m"; "multiple"])
        then Raise (BadParameter write_validate_mode_message)
        else Ret (set_out (Some (Str.lower mode, dest_file)) obj)
    | _, _ => Raise (BadParameter write_validate_arity_message)
    end
  else Ret (set_out None obj).

(** ** at_time_validate *)

(** [([0-2]\d)(:[0-5]\d){1,2}] *)
Definition time_re : Re.regex :=
  Re.Seq (Re.Seq (Re.range "0" "2") Re.digit)
         (Re.once_or_twice (Re.Seq (Re.lit ":") (Re.Seq (Re.range "0" "5") Re.digit))).

(** [\d{4}-[01]\d-[0-3]\d [0-2]\d:[0-5]\d(:[0-5]\d)?] *)
Definition date_time_re : Re.regex :=
  Re.Seq (Re.times 4 Re.digit)
 (Re.Seq (Re.lit "-")
 (Re.Seq (Re.range "0" "1") (Re.Seq Re.digit
 (Re.Seq (Re.lit "-")
 (Re.Seq (Re.range "0" "3") (Re.Seq Re.digit
 (Re.Seq (Re.lit " ")
 (Re.Seq (Re.range "0" "2") (Re.Seq Re.digit
 (Re.Seq (Re.lit ":")
 (Re.Seq (Re.range "0" "5") (Re.Seq Re.digit
 (Re.opt (Re.Seq (Re.lit ":") (Re.Seq (Re.range "0" "5") Re.digit))))))))))))))).

Definition at_time_message : string :=
  "A commit at time must be in one of the two formats: 'hh:mm[:ss]' or 'yyyy-mm-dd hh:mm[:ss]' (seconds are optional).".

(** [at_time_validate(ctx, param, value)]; the result is [ctx.obj] after
    the call. *)
Definition at_time_validate (obj : Obj) (value : option string) : result Obj :=
  match value with
  | Some v =>
      if negb (Re.search time_re v) && negb (Re.search date_time_re v)
      then Raise (BadParameter at_time_message)
      else Ret (set_at_time value obj)
  | None => Ret (set_at_time value obj)
  end.

(** ** write_out *)

(** [output.split('device: ')[1].split('\n')[0].strip()]; [None] when an
    index is out of range. *)
Definition device_name (output : string) : option string :=
  after_marker ← Str.split "device: " output !! 1;
  first_line ← Str.split (String "010" "") after_marker !! 0;
  Some (Str.strip first_line).

(** The file [write_out] opens for the device [ip]: with mode [m] or
    [multiple] the name of the device goes in front of the file name. *)
Definition destination (mode dest_file ip : string) : string :=
  if bool_decide (mode ∈ ["m"; "multiple"])
  then PosixPath.join (PosixPath.split dest_file).1
         (ip +:+ "_" +:+ (PosixPath.split dest_file).2)
  else dest_file.

Section Writer.
Context {Net : Type}.

(** [write_out(input)].  Unpacking [to_file] raises [TypeError] exactly
    when it is [None]; that is the console branch. *)
Definition write_out (input : Output) : M Net unit :=
  let '(to_file, output) := input in
  match to_file with
  | None => click_echo output
  | Some (mode, dest_file) =>
      ip <- indexing (device_name output) ;;
      let dest_file := destination mode dest_file ip in
      opened <- open_append dest_file ;;
      match opened with
      | inl e =>
          secho ("Could not open output file '" +:+ dest_file +:+
                 "' for writing. Output would have been:" +:+
                 String "010" output) (Some "error") >>
          secho ("Here is the error for opening the output file:" +:+ e)
                (Some "error")
      | inr out_file =>
          file_echo out_file output >>
          secho (ip +:+ " output appended to: " +:+ dest_file) None
      end
  end.
End Writer.

(** ** The handlers *)

Section Handlers.
Context {Net : Type}.

(** [multiprocessing.cpu_count()] *)
Variable cpu_count : nat.

(** [wrap.open_connection], which is not part of this module: it talks
    to the device and returns the output for [write_out]. *)
Variable wrap_open_connection : OpenArgs → Net → Output * Net.

(** The order in which the tasks of a pool complete. *)
Variable arrival : list OpenArgs → list OpenArgs.

(** A call of [wrap.open_connection], logged with the place it runs in. *)
Definition open_connection (place : Place) (a : OpenArgs) : M Net Output :=
  λ w,
    let '(r, n) := wrap_open_connection a (net w) in
    (Ret r,
     with_sessions (λ l, l ++ [{| place := place; args := a; returned := r |}])
       (with_net n w)).

(** [multiprocessing.Pool(n)] *)
Definition Pool_new (n : nat) : M Net unit := λ w,
  (Ret tt,
   with_pool (Some {| processes := n; tasks := []; closed := false;
                      joined := false |}) w).

(** [mp_pool.apply_async(wrap.open_connection, args=a, callback=write_out)] *)
Definition apply_async (a : OpenArgs) : M Net unit := λ w,
  (Ret tt,
   with_pool ((λ p, {| processes := processes p; tasks := tasks p ++ [a];
                       closed := closed p; joined := joined p |})
              <$> mp_pool w) w).

(** [mp_pool.close()] *)
Definition close : M Net unit := λ w,
  (Ret tt,
   with_pool ((λ p, {| processes := processes p; tasks := tasks p;
                       closed := true; joined := joined p |})
              <$> mp_pool w) w).

(** [mp_pool.join()]: returns when every task has run in a worker and
    the pool's result thread has called the callback on every result.
    Workers only touch the network and callbacks only console and
    files, so the tasks are run here one after the other in their
    order of completion, and the callbacks after them in the same
    order.  A callback that raises ends the routing; the exception is
    handed on. *)
Definition run_tasks (p : Pool) : M Net unit :=
  results <- map_m (open_connection PoolWorker) (arrival (tasks p)) ;;
  for_each results write_out >>
  λ w, (Ret tt,
        with_pool ((λ p, {| processes := processes p; tasks := tasks p;
                            closed := closed p; joined := true |})
                   <$> mp_pool w) w).

Definition join : M Net unit := λ w,
  match mp_pool w with
  | None => (Ret tt, w)
  | Some p => run_tasks p w
  end.

Definition commit_message : string :=
  "--blank and the commands argument cannot both be omitted.".

(** The default of the [commands] argument of [commit], which stands for
    an argument that was not given: [annotate system] followed by an empty
    pair of double quotes. *)
Definition commit_commands_default : string :=
  "annotate system " +:+ Str.quoted "".

(** [commit(ctx, commands, blank, check, sync, comment, confirm, at_time)] *)
Definition commit (ctx : Obj) (commands : string) (blank check sync : bool)
    (comment : option string) (confirm : option Z)
    (at_time : option string) : M Net unit :=
  if negb blank && String.eqb commands commit_commands_default
  then raise (BadParameter commit_message)
  else
    Pool_new (cpu_count * 2) >>
    for_each (obj_hosts ctx) (λ ip,
      r <- open_connection MainProcess
            {| oa_ip := ip;
               oa_username := username (obj_conn ctx);
               oa_password := password (obj_conn ctx);
               oa_function := wrap_commit commands check sync comment confirm
                                (obj_at_time ctx) blank;
               oa_write := obj_out ctx;
               oa_connect_timeout := connect_timeout (obj_conn ctx);
               oa_session_timeout := session_timeout (obj_conn ctx);
               oa_port := port (obj_conn ctx) |} ;;
      write_out r) >>
    close >>
    join.

(** [compare(ctx, commands)] *)
Definition compare (ctx : Obj) (commands : string) : M Net unit :=
  Pool_new (cpu_count * 2) >>
  for_each (obj_hosts ctx) (λ ip,
    apply_async
      {| oa_ip := ip;
         oa_username := username (obj_conn ctx);
         oa_password := password (obj_conn ctx);
         oa_function := wrap_compare commands;
         oa_write := obj_out ctx;
         oa_connect_timeout := connect_timeout (obj_conn ctx);
         oa_session_timeout := session_timeout (obj_conn ctx);
         oa_port := port (obj_conn ctx) |}) >>
  close >>
  join.
End Handlers.

(** ** Notions used in the statements *)

(** An output that [write_out] returns normally on: one for the console,
    or one with the marker in it. *)
Definition routable (r : Output) : Prop :=
  r.1 = None ∨ Str.contains "device: " r.2.

(** What the session log says about a call: where it ran and for which
    host. *)
Definition tag (s : Session) : Place * string := (place s, oa_ip (args s)).

(** A text with a time in it: two digits, the first at most 2, a colon,
    and two digits, the first at most 5. *)
Definition holds_time (s : string) : Prop :=
  ∃ before h1 h2 m1 m2 after,
    s = before +:+
        String h1 (String h2 (String ":" (String m1 (String m2 after)))) ∧
    Re.in_range "0" "2" h1 = true ∧ Re.in_range "0" "9" h2 = true ∧
    Re.in_range "0" "5" m1 = true ∧ Re.in_range "0" "9" m2 = true.

(** ** Concrete inputs for the examples *)

(** A world without devices: nothing printed, no file, every path can be
    opened, no pool. *)
Definition quiet_world : World unit :=
  {| console := []; files := ∅; open_error := λ _, None; net := tt;
     sessions := []; mp_pool := None |}.


(** A group with the commands [commit], [compare] and [health]. *)
Definition three_commands : Group nat :=
  {| commands := {[ "commit" := 1; "compare" := 2; "health" := 3 ]} |}.

(** Two hosts, the output of each sent to a file of its own. *)
Definition two_hosts : Obj :=
  {| obj_hosts := ["10.0.0.1"; "10.0.0.2"];
     obj_conn := {| username := "admin"; password := "secret"; port := 22;
                    session_timeout := 300; connect_timeout := 5 |};
     obj_out := Some ("m", "/tmp/out.txt");
     obj_at_time := None |}.

(** A device report, with the header it starts with. *)
Definition report_of (ip : string) : string :=
  "Results from device: " +:+ ip +:+ String "010" "Commit complete." +:+
  String "010" "".

(** Devices that answer every call with a report under the address they
    were called at, for the destination they were given. *)
Definition reporting_device (a : OpenArgs) (n : unit) : Output * unit :=
  ((oa_write a, report_of (oa_ip a)), n).


(** ** main *)

Section Main.
(** [utils.clean_lines], which is not part of this module: it turns the
    value of the [-i] option into the hosts it names. *)
Variable clean_lines : string → list string.

(** [main(ctx, host, password, port, session_timeout, connect_timeout,
    username)]: fills ['hosts'] and ['conn'] of [ctx.obj]. *)
Definition main (obj : Obj) (host password : string)
    (port session_timeout connect_timeout : Z) (username : string) : Obj :=
  {| obj_hosts := clean_lines host;
     obj_conn := {| username := username; password := password;
                    port := port; session_timeout := session_timeout;
                    connect_timeout := connect_timeout |};
     obj_out := obj_out obj;
     obj_at_time := obj_at_time obj |}.
End Main.

(** ** More notions used in the statements *)

(** The argument tuple [commit] builds for the host [ip]. *)
Definition commit_args (ctx : Obj) (commands : string) (check sync : bool)
    (comment : option string) (confirm : option Z) (blank : bool)
    (ip : string) : OpenArgs :=
  {| oa_ip := ip;
     oa_username := username (obj_conn ctx);
     oa_password := password (obj_conn ctx);
     oa_function := wrap_commit commands check sync comment confirm
                      (obj_at_time ctx) blank;
     oa_write := obj_out ctx;
     oa_connect_timeout := connect_timeout (obj_conn ctx);
     oa_session_timeout := session_timeout (obj_conn ctx);
     oa_port := port (obj_conn ctx) |}.

(** The argument tuple [compare] builds for the host [ip]. *)
Definition compare_args (ctx : Obj) (commands : string) (ip : string)
  : OpenArgs :=
  {| oa_ip := ip;
     oa_username := username (obj_conn ctx);
     oa_password := password (obj_conn ctx);
     oa_function := wrap_compare commands;
     oa_write := obj_out ctx;
     oa_connect_timeout := connect_timeout (obj_conn ctx);
     oa_session_timeout := session_timeout (obj_conn ctx);
     oa_port := port (obj_conn ctx) |}.

(** The files after [text] was appended to the file [path]. *)
Definition append_to (path text : string) (fs : gmap string string)
  : gmap string string :=
  <[path := default "" (fs !! path) +:+ text]> fs.


(** Files only grow: every file of [fs] is still there in [fs'] and
    starts with what it held. *)
Definition grown (fs fs' : gmap string string) : Prop :=
  ∀ path old, fs !! path = Some old →
    ∃ more, fs' !! path = Some (old +:+ more).


(** A pool that was created with [n] processes, given [submitted] and
    then closed and joined. *)
Definition finished_pool (n : nat) (submitted : list OpenArgs) : Pool :=
  {| processes := n; tasks := submitted; closed := true; joined := true |}.

(** * Properties *)

(** ** Strings *)

Module StrFacts.
Import Str.

Lemma app_cons c s t : String c s +:+ t = String c (s +:+ t).
Proof. reflexivity. Qed.

Lemma app_nil_l s : "" +:+ s = s.
Proof. reflexivity. Qed.

Lemma app_nil_r s : s +:+ "" = s.
Proof. induction s as [|c s IH]; [done|]. by rewrite app_cons, IH. Qed.

Lemma app_assoc s t u : (s +:+ t) +:+ u = s +:+ t +:+ u.
Proof. induction s as [|c s IH]; [done|]. by rewrite !app_cons, IH. Qed.

Lemma app_length s t :
  String.length (s +:+ t) = String.length s + String.length t.
Proof. induction s as [|c s IH]; [done|]. rewrite app_cons. simpl. lia. Qed.

Lemma eqb_ascii_refl c : Ascii.eqb c c = true.
Proof. apply Ascii.eqb_refl. Qed.

Lemma startswith_app p t : startswith (p +:+ t) p = true.
Proof.
  induction p as [|c p IH]; [done|].
  rewrite app_cons. simpl. by rewrite eqb_ascii_refl.
Qed.

Lemma startswith_drop s p :
  startswith s p = true → s = p +:+ drop (String.length p) s.
Proof.
  revert s. induction p as [|c p IH]; intros s H; [done|].
  destruct s as [|b s]; [done|]. simpl in H.
  destruct (Ascii.eqb c b) eqn:E; [|done].
  apply Ascii.eqb_eq in E as ->.
  rewrite app_cons. simpl. f_equal. by apply IH.
Qed.

Lemma startswith_spec s p : startswith s p = true ↔ ∃ t, s = p +:+ t.
Proof.
  split.
  - intros H. eexists. by apply startswith_drop.
  - intros [t ->]. apply startswith_app.
Qed.


(** [partition] cuts at an occurrence of the separator ... *)
Lemma partition_Some sep s before after :
  partition sep s = Some (before, after) → s = before +:+ sep +:+ after.
Proof.
  revert before after. induction s as [|c s IH]; intros before after.
  - simpl. destruct (startswith "" sep) eqn:E; [|done].
    intros [= <- <-]. by apply startswith_drop in E.
  - simpl. destruct (startswith (String c s) sep) eqn:E.
    + intros [= <- <-]. by apply startswith_drop in E.
    + destruct (partition sep s) as [[b a]|] eqn:P; [|done].
      intros [= <- <-]. rewrite app_cons. f_equal. by apply IH.
Qed.

(** ... at the first one: no occurrence starts further left ... *)
Lemma partition_first sep s before after pre post :
  partition sep s = Some (before, after) →
  s = pre +:+ sep +:+ post →
  String.length before ≤ String.length pre.
Proof.
  revert before after pre. induction s as [|c s IH]; intros before after pre.
  - simpl. destruct (startswith "" sep); [|done]. intros [= <- <-] _. simpl. lia.
  - simpl. destruct (startswith (String c s) sep) eqn:E.
    + intros [= <- <-] _. simpl. lia.
    + destruct (partition sep s) as [[b a]|] eqn:P; [|done].
      intros [= <- <-] Hs. destruct pre as [|c' pre].
      * rewrite app_nil_l in Hs. rewrite Hs, startswith_app in E. done.
      * rewrite app_cons in Hs. injection Hs as -> Hs.
        simpl. apply le_n_S. by eapply IH.
Qed.

(** ... and it finds one whenever there is one. *)
Lemma partition_None sep s : partition sep s = None ↔ ¬ contains sep s.
Proof.
  split.
  - intros H (pre & post & ->). revert H.
    induction pre as [|c pre IH].
    + rewrite app_nil_l.
      destruct (sep +:+ post) as [|c r] eqn:E; simpl;
        rewrite <- E, startswith_app; done.
    + rewrite app_cons. simpl.
      destruct (startswith _ sep); [done|].
      destruct (partition sep (pre +:+ sep +:+ post)) as [[b a]|]; [done|].
      intros _. by apply IH.
  - intros H. destruct (partition sep s) as [[b a]|] eqn:P; [|done].
    destruct H. exists b, a. by apply partition_Some.
Qed.

Lemma partition_shorter sep s before after :
  sep ≠ "" → partition sep s = Some (before, after) →
  String.length after < String.length s.
Proof.
  intros Hsep H%partition_Some. subst s. rewrite !app_length.
  destruct sep; [done|]. simpl. lia.
Qed.

Lemma split_fuel_enough sep n s :
  sep ≠ "" → String.length s ≤ n →
  split_fuel n sep s = split_fuel (String.length s) sep s.
Proof.
  intros Hsep. revert s.
  induction n as [n IH] using lt_wf_ind. intros s Hn.
  destruct n as [|n].
  - destruct s; [done|simpl in Hn; lia].
  - simpl. destruct (partition sep s) as [[b a]|] eqn:P.
    + pose proof (partition_shorter _ _ _ _ Hsep P) as Hlt.
      destruct (String.length s) as [|m] eqn:L; [lia|].
      simpl. rewrite P. f_equal.
      rewrite (IH n) by lia. rewrite (IH m) by lia. done.
    + destruct (String.length s); simpl; [done|]. by rewrite P.
Qed.

(** One round of [split]. *)
Lemma split_unfold sep s :
  sep ≠ "" →
  split sep s =
    match partition sep s with
    | None => [s]
    | Some (before, after) => before :: split sep after
    end.
Proof.
  intros Hsep. unfold split.
  destruct (partition sep s) as [[b a]|] eqn:P.
  - pose proof (partition_shorter _ _ _ _ Hsep P) as Hlt.
    destruct (String.length s) as [|m] eqn:L; [lia|].
    simpl. rewrite P. f_equal. apply split_fuel_enough; [done|lia].
  - destruct (String.length s); simpl; [done|]. by rewrite P.
Qed.

End StrFacts.

(** ** The device name read out of an output text *)

Section DeviceName.
Import Str StrFacts.

Lemma marker_nonempty : "device: " ≠ "".
Proof. done. Qed.

Lemma newline_nonempty : String "010" "" ≠ "".
Proof. done. Qed.

Lemma split_head sep s : sep ≠ "" → split sep s !! 0 = Some (upto sep s).
Proof.
  intros Hsep. rewrite split_unfold by done. unfold upto.
  by destruct (partition sep s) as [[b a]|].
Qed.

(** With a marker in the text the name is what follows its first
    occurrence, up to the end of the line or the next marker, without
    the white space around it. *)
Lemma device_name_Some output pre rest :
  partition "device: " output = Some (pre, rest) →
  device_name output =
    Some (strip (upto (String "010" "") (upto "device: " rest))).
Proof.
  intros P. unfold device_name.
  rewrite (split_unfold _ output marker_nonempty), P. simpl.
  rewrite (split_head _ rest marker_nonempty). simpl.
  by rewrite (split_head _ _ newline_nonempty).
Qed.

(** Without a marker the indexing fails. *)
Lemma device_name_None output :
  device_name output = None ↔ ¬ contains "device: " output.
Proof.
  rewrite <- partition_None. split.
  - intros H. destruct (partition "device: " output) as [[b a]|] eqn:P; [|done].
    by rewrite (device_name_Some _ _ _ P) in H.
  - intros P. unfold device_name.
    by rewrite (split_unfold _ output marker_nonempty), P.
Qed.
End DeviceName.

(** ** write_out *)

Section WriterFacts.
Context {Net : Type}.
Implicit Types w : World Net.

Lemma write_out_console output w :
  write_out (None, output) w =
    (Ret tt, with_console (λ c, c ++ [Echo output true]) w).
Proof. reflexivity. Qed.

(** [write_out] on a file destination, one case per exit of the source. *)
Lemma write_out_file mode dest_file output w :
  write_out (Some (mode, dest_file), output) w =
    match device_name output with
    | None => (Raise IndexError, w)
    | Some ip =>
        let target := destination mode dest_file ip in
        match open_error w target with
        | Some e =>
            (Ret tt,
             with_console (λ c, c ++
               [Secho ("Could not open output file '" +:+ target +:+
                       "' for writing. Output would have been:" +:+
                       String "010" output) (Some "error");
                Secho ("Here is the error for opening the output file:" +:+ e)
                      (Some "error")]) w)
        | None =>
            (Ret tt,
             with_console (λ c, c ++
               [Secho (ip +:+ " output appended to: " +:+ target) None])
               (with_files (λ fs,
                  <[target := default "" (fs !! target) +:+ output]> fs) w))
        end
    end.
Proof.
  unfold write_out, bind. destruct (device_name output) as [ip|]; [|done].
  simpl. unfold open_append.
  destruct (open_error w _) as [e|] eqn:E; simpl.
  - unfold secho, with_console. simpl. by rewrite <- (assoc_L (++)).
  - unfold file_echo, secho, with_console, with_files. simpl. do 2 f_equal.
    destruct (files w !! _) eqn:F; simpl.
    + by rewrite F.
    + by rewrite lookup_insert_eq, insert_insert_eq.
Qed.

(** C10: a call of write_out with a file destination and an output text
    that does not contain 'device: ' raises IndexError while the device
    name is extracted; nothing is written, neither to a file nor to the
    console: the world is left as it was. *)
Theorem write_out_without_marker mode dest_file output w :
  ¬ Str.contains "device: " output →
  write_out (Some (mode, dest_file), output) w = (Raise IndexError, w).
Proof.
  intros H%device_name_None. by rewrite write_out_file, H.
Qed.

End WriterFacts.

Lemma write_out_without_marker_witness :
  ¬ Str.contains "device: " "Commit complete." ∧
  write_out (Some ("s", "/tmp/out.txt"), "Commit complete.") quiet_world
    = (Raise IndexError, quiet_world).
Proof.
  assert (H : ¬ Str.contains "device: " "Commit complete.")
    by (apply StrFacts.partition_None; vm_compute; reflexivity).
  split; [exact H|]. apply write_out_without_marker, H.
Defined.


(** ** Paths *)

Module PathFacts.
Import Str StrFacts.



















End PathFacts.

(** ** The line of the marker *)

Section DeviceLine.
Import Str StrFacts PathFacts.

Lemma upto_cons sep c s :
  startswith (String c s) sep = false →
  upto sep (String c s) = String c (upto sep s).
Proof.
  intros H. unfold upto. simpl partition. rewrite H.
  by destruct (partition sep s) as [[b a]|].
Qed.





End DeviceLine.

(** ** Where the output goes *)

Section Routing.
Import Str StrFacts PathFacts.
Context {Net : Type}.
Implicit Types w : World Net.


End Routing.



(** ** The handlers *)

Section Dispatch.
Context {Net : Type}.
Variable cpu_count : nat.
Variable wrap_open_connection : OpenArgs → Net → Output * Net.
Variable arrival : list OpenArgs → list OpenArgs.
Implicit Types w : World Net.

Lemma write_out_routable (r : Output) w :
  routable r →
  ∃ w', write_out r w = (Ret tt, w') ∧ sessions w' = sessions w ∧
        mp_pool w' = mp_pool w ∧ net w' = net w.
Proof.
  destruct r as [[[mode dest_file]|] output]; intros Hr.
  - rewrite write_out_file.
    destruct Hr as [Hr|Hr]; [done|]. simpl in Hr.
    destruct (device_name output) as [ip|] eqn:D;
      [|by apply device_name_None in D].
    simpl. destruct (open_error w _); eauto.
  - rewrite write_out_console. eauto.
Qed.

Lemma open_connection_spec pl a w :
  ∃ w', open_connection wrap_open_connection pl a w
          = (Ret (wrap_open_connection a (net w)).1, w') ∧
        sessions w' = sessions w ++
          [{| place := pl; args := a;
              returned := (wrap_open_connection a (net w)).1 |}] ∧
        mp_pool w' = mp_pool w ∧ console w' = console w ∧ files w' = files w.
Proof.
  unfold open_connection. destruct (wrap_open_connection a (net w)) as [r n].
  eauto 10.
Qed.

Lemma bind_ret {A B} (m : M Net A) (k : A → M Net B) w a w1 :
  m w = (Ret a, w1) → bind m k w = k a w1.
Proof. unfold bind. by intros ->. Qed.

Hypothesis arrival_perm : ∀ l, arrival l ≡ₚ l.
Hypothesis outputs_routable : ∀ a n, routable (wrap_open_connection a n).1.


(** The loop of the other handlers: one task per host handed to the
    pool, no session opened yet. *)
Lemma submit_loop (A : string → OpenArgs) hosts w p :
  mp_pool w = Some p →
  ∃ w',
    for_each hosts (λ ip, apply_async (A ip)) w = (Ret tt, w') ∧
    mp_pool w' = Some {| processes := processes p;
                         tasks := tasks p ++ map A hosts;
                         closed := closed p; joined := joined p |} ∧
    sessions w' = sessions w ∧ console w' = console w ∧
    files w' = files w ∧ net w' = net w ∧ open_error w' = open_error w.
Proof.
  revert w p. induction hosts as [|ip hosts IH]; intros w p Hp.
  - exists w. simpl. rewrite app_nil_r. by destruct p.
  - destruct (IH (with_pool (Some {| processes := processes p;
                                     tasks := tasks p ++ [A ip];
                                     closed := closed p; joined := joined p |}) w)
                _ eq_refl) as (w' & E & P & S & C & F & N & O).
    exists w'. split_and!; try done.
    + simpl. erewrite bind_ret; [exact E|].
      unfold apply_async. by rewrite Hp.
    + rewrite P. simpl. by rewrite <- app_assoc.
Qed.

(** The workers: one session per task, in the order of completion. *)
Lemma workers_run l w :
  ∃ w' new,
    map_m (open_connection wrap_open_connection PoolWorker) l w
      = (Ret (map returned new), w') ∧
    sessions w' = sessions w ++ new ∧
    map args new = l ∧ Forall (λ s, place s = PoolWorker) new ∧
    Forall (λ s, routable (returned s)) new ∧
    mp_pool w' = mp_pool w.
Proof.
  revert w. induction l as [|a l IH]; intros w.
  - exists w, []. by rewrite app_nil_r.
  - destruct (open_connection_spec PoolWorker a w) as (w1 & E1 & S1 & P1 & _).
    destruct (IH w1) as (w2 & new & E2 & S2 & A2 & Pl2 & R2 & P2).
    exists w2, ({| place := PoolWorker; args := a;
                   returned := (wrap_open_connection a (net w)).1 |} :: new).
    split_and!.
    + simpl. erewrite bind_ret; [|exact E1].
      erewrite bind_ret; [|exact E2]. done.
    + rewrite S2, S1. by rewrite <- app_assoc.
    + simpl. by rewrite A2.
    + by constructor.
    + constructor; [apply outputs_routable|done].
    + congruence.
Qed.

(** The callbacks: every routable output is written out. *)
Lemma callbacks_run (results : list Output) w :
  Forall routable results →
  ∃ w', for_each results write_out w = (Ret tt, w') ∧
        sessions w' = sessions w ∧ mp_pool w' = mp_pool w.
Proof.
  intros H. revert w. induction H as [|r results Hr _ IH]; intros w.
  - by exists w.
  - destruct (write_out_routable r w Hr) as (w1 & E1 & S1 & P1 & _).
    destruct (IH w1) as (w2 & E2 & S2 & P2).
    exists w2. split_and!; [|congruence..].
    simpl. erewrite bind_ret; [exact E2|exact E1].
Qed.

Lemma join_runs w p :
  mp_pool w = Some p →
  ∃ w' new,
    join wrap_open_connection arrival w = (Ret tt, w') ∧
    sessions w' = sessions w ++ new ∧
    map args new = arrival (tasks p) ∧
    Forall (λ s, place s = PoolWorker) new ∧
    mp_pool w' = Some {| processes := processes p; tasks := tasks p;
                         closed := closed p; joined := true |}.
Proof.
  intros Hp. unfold join. rewrite Hp. unfold run_tasks.
  destruct (workers_run (arrival (tasks p)) w)
    as (w1 & new & E1 & S1 & A1 & Pl1 & R1 & P1).
  destruct (callbacks_run (map returned new) w1) as (w2 & E2 & S2 & P2).
  { by apply Forall_fmap. }
  eexists _, new. split_and!.
  - erewrite bind_ret; [|exact E1]. erewrite bind_ret; [|exact E2]. done.
  - simpl. congruence.
  - done.
  - done.
  - simpl. rewrite P2, P1, Hp. done.
Qed.


Lemma close_spec w p :
  mp_pool w = Some p →
  close w = (Ret tt, with_pool (Some {| processes := processes p;
                                        tasks := tasks p; closed := true;
                                        joined := joined p |}) w).
Proof. intros Hp. unfold close. by rewrite Hp. Qed.






(** C9: [commit] called without the blank flag and with the default of
    the commands argument raises BadParameter at once: the world is as
    before, so no session was opened and no pool created. *)
Theorem commit_without_commands ctx check sync comment confirm at_time w :
  commit cpu_count wrap_open_connection arrival ctx commit_commands_default
    false check sync comment confirm at_time w
  = (Raise (BadParameter commit_message), w).
Proof. reflexivity. Qed.
End Dispatch.

Lemma reporting_device_routable a n : routable (reporting_device a n).1.
Proof.
  right. exists "Results from ", (oa_ip a +:+ String "010" "Commit complete." +:+ String "010" "").
  reflexivity.
Qed.


(** C2: with two hosts [commit] hands no task to the pool it creates: it
    opens both sessions itself, one after the other, and the pool is shut
    down empty; [compare], on the same input, hands the pool one task per
    host and the sessions are opened by its workers. *)
Theorem commit_bypasses_pool :
  let commit_world :=
    (commit 4 reporting_device reverse two_hosts "set system host-name lab"
       false false false None None None quiet_world).2 in
  let compare_world :=
    (compare 4 reporting_device reverse two_hosts "set system host-name lab"
       quiet_world).2 in
  (map oa_ip ∘ tasks <$> mp_pool commit_world) = Some []
  ∧ map tag (sessions commit_world)
    = [(MainProcess, "10.0.0.1"); (MainProcess, "10.0.0.2")]
  ∧ (map oa_ip ∘ tasks <$> mp_pool compare_world)
    = Some ["10.0.0.1"; "10.0.0.2"]
  ∧ map tag (sessions compare_world)
    = [(PoolWorker, "10.0.0.2"); (PoolWorker, "10.0.0.1")].
Proof. vm_compute. done. Qed.


(** ** The command-name resolver *)

Section ResolverFacts.
Context {Command : Type}.
Implicit Types g : Group Command.

Lemma sorted_elem (l : list string) x : x ∈ Str.sorted l ↔ x ∈ l.
Proof. unfold Str.sorted. by rewrite merge_sort_Permutation. Qed.

Lemma sorted_sorted (l : list string) : StronglySorted String.le (Str.sorted l).
Proof. apply StronglySorted_merge_sort; apply _. Qed.

(** Sorting a sorted list changes nothing. *)
Lemma sorted_fix (l : list string) :
  StronglySorted String.le l → Str.sorted l = l.
Proof.
  intros H. apply (StronglySorted_unique String.le); [apply sorted_sorted|done|].
  apply merge_sort_Permutation.
Qed.

Lemma filter_sorted (P : string → Prop) `{!∀ x, Decision (P x)} (l : list string) :
  StronglySorted String.le l → StronglySorted String.le (filter P l).
Proof.
  induction 1 as [|x l Hl IH Hx]; [constructor|].
  rewrite filter_cons. destruct (decide (P x)); [|done].
  constructor; [done|].
  apply Forall_forall. intros y [_ Hy]%list_elem_of_filter.
  by eapply Forall_forall in Hx.
Qed.

Lemma list_commands_elem g x : x ∈ list_commands g ↔ is_Some (commands g !! x).
Proof.
  unfold list_commands. by rewrite sorted_elem, elem_of_elements, elem_of_dom.
Qed.

Lemma list_commands_NoDup g : NoDup (list_commands g).
Proof.
  unfold list_commands, Str.sorted. rewrite merge_sort_Permutation.
  apply NoDup_elements.
Qed.

(** C4: [get_command] returns the command registered under the very name
    it is given when there is one.  Otherwise it looks at the registered
    names that start with the given text, each listed once and in
    lexicographic order: without any it returns None (not found), with
    one it returns the command of that name, with more it fails the
    invocation with a usage error whose message lists all of them in
    that order, separated by commas. *)
Theorem get_command_resolves g cmd_name :
  (∀ c, commands g !! cmd_name = Some c →
        get_command g cmd_name = Ret (Some c))
  ∧ (commands g !! cmd_name = None →
     let names := candidates g cmd_name in
     (∀ x, x ∈ names ↔
           is_Some (commands g !! x) ∧ ∃ rest, x = cmd_name +:+ rest)
     ∧ NoDup names
     ∧ StronglySorted String.le names
     ∧ match names with
       | [] => get_command g cmd_name = Ret None
       | [name] =>
           ∃ c, commands g !! name = Some c ∧
                get_command g cmd_name = Ret (Some c)
       | _ =>
           get_command g cmd_name =
             Raise (UsageError ("Command ambiguous, could be: " +:+
                                Str.join ", " names))
       end).
Proof.
  split.
  - intros c Hc. unfold get_command, Group_get_command. by rewrite Hc.
  - intros Hnone names.
    assert (Hel : ∀ x, x ∈ names ↔
              is_Some (commands g !! x) ∧ ∃ rest, x = cmd_name +:+ rest).
    { intros x. unfold names, candidates.
      by rewrite list_elem_of_filter, list_commands_elem,
        StrFacts.startswith_spec, (comm and). }
    assert (Hs : StronglySorted String.le names).
    { apply filter_sorted, sorted_sorted. }
    split_and!; [done| |done|].
    { apply NoDup_filter, list_commands_NoDup. }
    unfold get_command, Group_get_command. rewrite Hnone.
    fold (candidates g cmd_name). fold names.
    destruct names as [|x [|y l]] eqn:E; [done| |].
    + destruct (proj1 (Hel x)) as [[c Hc] _]; [left|].
      exists c. by rewrite Hc.
    + by rewrite sorted_fix.
Qed.
End ResolverFacts.

Lemma get_command_resolves_witness :
  get_command three_commands "com"
    = Raise (UsageError "Command ambiguous, could be: commit, compare")
  ∧ get_command three_commands "hea" = Ret (Some 3)
  ∧ get_command three_commands "xyz" = Ret None
  ∧ get_command three_commands "commit" = Ret (Some 1).
Proof.
  split_and!.
  - destruct (get_command_resolves three_commands "com") as [_ H].
    assert (E : commands three_commands !! "com" = None)
      by (vm_compute; reflexivity).
    destruct (H E) as (_ & _ & _ & R).
    vm_compute in R. vm_compute. exact R.
  - destruct (get_command_resolves three_commands "hea") as [_ H].
    assert (E : commands three_commands !! "hea" = None)
      by (vm_compute; reflexivity).
    destruct (H E) as (_ & _ & _ & R).
    vm_compute in R. destruct R as (c & Hc & R).
    injection Hc as <-. vm_compute. exact R.
  - destruct (get_command_resolves three_commands "xyz") as [_ H].
    assert (E : commands three_commands !! "xyz" = None)
      by (vm_compute; reflexivity).
    destruct (H E) as (_ & _ & _ & R).
    vm_compute in R. vm_compute. exact R.
  - destruct (get_command_resolves three_commands "commit") as [H _].
    apply H. vm_compute. reflexivity.
Defined.

(** ** The validators *)

Section Validators.
Implicit Types obj : Obj.

Lemma write_validate_pair obj mode path :
  [mode; path] ≠ ["default"; "default"] →
  write_validate obj [mode; path] =
    if bool_decide (Str.lower mode ∈ ["s"; "single"; "m"; "multiple"])
    then Ret (set_out (Some (Str.lower mode, path)) obj)
    else Raise (BadParameter write_validate_mode_message).
Proof.
  intros H. unfold write_validate. rewrite bool_decide_eq_true_2 by done.
  simpl. by repeat case_bool_decide.
Qed.

(** C6, as the code has it: for every pair other than the pair
    (default, default), the mode is compared in lower case with s, single,
    m and multiple; on a match the lower-cased mode itself is stored with
    the path, otherwise the call raises BadParameter.  The pair
    (default, default), which stands for an option that was not given,
    selects the console.  s and single are stored as they are, and
    write_out treats them alike, as it does m and multiple. *)
Theorem write_validate_modes obj mode path :
  [mode; path] ≠ ["default"; "default"] →
  (Str.lower mode ∈ ["s"; "single"; "m"; "multiple"] →
   write_validate obj [mode; path]
     = Ret (set_out (Some (Str.lower mode, path)) obj))
  ∧ (Str.lower mode ∉ ["s"; "single"; "m"; "multiple"] →
     write_validate obj [mode; path]
       = Raise (BadParameter write_validate_mode_message))
  ∧ write_validate obj ["default"; "default"] = Ret (set_out None obj)
  ∧ (∀ Net output (w : World Net),
       write_out (Some ("s", path), output) w
         = write_out (Some ("single", path), output) w
       ∧ write_out (Some ("m", path), output) w
         = write_out (Some ("multiple", path), output) w).
Proof.
  intros H. rewrite (write_validate_pair _ _ _ H). split_and!.
  - intros Hm. by rewrite bool_decide_eq_true_2.
  - intros Hm. by rewrite bool_decide_eq_false_2.
  - done.
  - intros Net output w. by rewrite !write_out_file.
Qed.
End Validators.

Lemma write_validate_modes_witness :
  write_validate two_hosts ["Single"; "/tmp/out.txt"]
    = Ret (set_out (Some ("single", "/tmp/out.txt")) two_hosts)
  ∧ write_validate two_hosts ["bogus"; "/tmp/out.txt"]
    = Raise (BadParameter write_validate_mode_message).
Proof.
  split.
  - apply (write_validate_modes two_hosts "Single" "/tmp/out.txt");
      [discriminate|]. eapply bool_decide_eq_true_1. reflexivity.
  - apply (write_validate_modes two_hosts "bogus" "/tmp/out.txt");
      [discriminate|]. eapply bool_decide_eq_false_1. reflexivity.
Defined.

(** C6, as the spec has it, fails twice: the pair (default, default) is
    accepted although default is no alias of a mode, and s and single
    are not stored as the same value. *)
Lemma write_validate_default_pair :
  (Str.lower "default" ∉ ["s"; "single"; "m"; "multiple"])
  ∧ (write_validate two_hosts ["default"; "default"]
     = Ret (set_out None two_hosts))
  ∧ (write_validate two_hosts ["s"; "/tmp/out.txt"]
     ≠ write_validate two_hosts ["single"; "/tmp/out.txt"]).
Proof.
  split_and!.
  - eapply bool_decide_eq_false_1. reflexivity.
  - reflexivity.
  - vm_compute. discriminate.
Qed.

(** ** Regular expressions *)

Module ReFacts.
Import Re StrFacts.

Lemma app_eq_nil (s t : string) : s +:+ t = "" → s = "" ∧ t = "".
Proof. by destruct s. Qed.

Lemma nullable_spec r : nullable r = true ↔ lang r "".
Proof.
  split.
  - induction r; simpl; intros H; try done.
    + constructor.
    + apply andb_prop in H as [H1 H2].
      change "" with ("" +:+ ""). constructor; auto.
    + apply orb_prop in H as [H|H]; [apply lang_Alt_l|apply lang_Alt_r]; auto.
    + constructor.
  - intros H. remember "" as s eqn:E. induction H; simpl; try done.
    + apply app_eq_nil in E as [-> ->]. by rewrite IHlang1, IHlang2.
    + by rewrite IHlang.
    + rewrite IHlang by done. apply orb_true_r.
Qed.

(** A non-empty string of a star starts with a non-empty string of its
    body. *)
Lemma lang_Star_cons r c s :
  lang (Star r) (String c s) →
  ∃ s1 s2, s = s1 +:+ s2 ∧ lang r (String c s1) ∧ lang (Star r) s2.
Proof.
  intros H. remember (Star r) as r' eqn:Er. remember (String c s) as x eqn:Ex.
  revert s Ex.
  induction H as [| | | | | |r0 s1 s2 H1 _ H2 IH2]; intros t Ex; try done.
  injection Er as ->. destruct s1 as [|c1 s1].
  - rewrite app_nil_l in Ex. by apply IH2.
  - rewrite app_cons in Ex. injection Ex as -> <-. eauto.
Qed.

Lemma deriv_spec r c s : lang (deriv c r) s ↔ lang r (String c s).
Proof.
  revert s. induction r as [| |p|r1 IH1 r2 IH2|r1 IH1 r2 IH2|r IH];
    intros s; simpl.
  - split; inversion 1.
  - split; inversion 1.
  - destruct (p c) eqn:E; split; inversion 1; subst.
    + by constructor.
    + constructor.
    + congruence.
  - assert (Hseq : lang (Seq (deriv c r1) r2) s →
                   lang (Seq r1 r2) (String c s)).
    { inversion 1; subst. rewrite <- app_cons. constructor; [|done].
      by apply IH1. }
    assert (Hinv : lang (Seq r1 r2) (String c s) →
              lang (Seq (deriv c r1) r2) s ∨ (lang r1 "" ∧ lang r2 (String c s))).
    { inversion 1 as [| |? ? s1 s2 H1 H2 E| | | |]; subst.
      destruct s1 as [|c1 s1].
      - rewrite app_nil_l in *. subst. by right.
      - rewrite app_cons in *. simplify_eq. left. constructor; [|done].
        by apply IH1. }
    destruct (nullable r1) eqn:N; split.
    + inversion 1; subst; [by apply Hseq|].
      change (String c s) with ("" +:+ String c s). constructor.
      * by apply nullable_spec.
      * by apply IH2.
    + intros [H|[_ H]]%Hinv; [by apply lang_Alt_l|].
      apply lang_Alt_r. by apply IH2.
    + apply Hseq.
    + intros [H|[H _]]%Hinv; [done|].
      apply nullable_spec in H. congruence.
  - split.
    + inversion 1; subst; [apply lang_Alt_l; by apply IH1|apply lang_Alt_r; by apply IH2].
    + inversion 1; subst; [apply lang_Alt_l; by apply IH1|apply lang_Alt_r; by apply IH2].
  - split.
    + inversion 1; subst. rewrite <- app_cons. constructor; [|done]. by apply IH.
    + intros (s1 & s2 & -> & H1 & H2)%lang_Star_cons.
      constructor; [|done]. by apply IH.
Qed.

(** [match_prefix] finds the strings that start with a string of the
    pattern. *)
Lemma match_prefix_spec r s :
  match_prefix r s = true ↔ ∃ m after, s = m +:+ after ∧ lang r m.
Proof.
  revert r. induction s as [|c s IH]; intros r; simpl.
  - rewrite orb_false_r, nullable_spec. split.
    + intros H. by exists "", "".
    + intros (m & after & [-> ->]%eq_sym%app_eq_nil & H). done.
  - split.
    + intros [H|H]%orb_prop.
      * exists "", (String c s). by apply nullable_spec in H.
      * apply IH in H as (m & after & -> & H).
        exists (String c m), after. by apply deriv_spec in H.
    + intros (m & after & E & H). destruct m as [|c' m].
      * apply nullable_spec in H. by rewrite H.
      * rewrite app_cons in E. injection E as <- ->.
        apply orb_true_intro. right. apply IH.
        exists m, after. split; [done|]. by apply deriv_spec.
Qed.

(** [search] finds the strings that hold a string of the pattern. *)
Lemma search_nil r : search r "" = match_prefix r "".
Proof. simpl. by rewrite !orb_false_r. Qed.

Lemma search_cons r c s :
  search r (String c s) = match_prefix r (String c s) || search r s.
Proof. reflexivity. Qed.

Lemma search_spec r s :
  search r s = true ↔ ∃ before m after, s = before +:+ m +:+ after ∧ lang r m.
Proof.
  induction s as [|c s IH].
  - rewrite search_nil, match_prefix_spec. split.
    + intros (m & after & -> & H). by exists "", m, after.
    + intros (before & m & after & E & H).
      symmetry in E. apply app_eq_nil in E as [-> E]. eauto.
  - rewrite search_cons. split.
    + intros [H|H]%orb_prop.
      * apply match_prefix_spec in H as (m & after & -> & H).
        by exists "", m, after.
      * apply IH in H as (before & m & after & -> & H).
        by exists (String c before), m, after.
    + intros (before & m & after & E & H). apply orb_true_intro.
      destruct before as [|c' before].
      * left. apply match_prefix_spec. exists m, after.
        by rewrite app_nil_l in E.
      * right. rewrite app_cons in E. injection E as <- ->.
        apply IH. eauto.
Qed.

Lemma lang_Seq_inv r1 r2 s :
  lang (Seq r1 r2) s → ∃ s1 s2, s = s1 +:+ s2 ∧ lang r1 s1 ∧ lang r2 s2.
Proof. inversion 1; subst; eauto. Qed.

Lemma lang_Chr_inv p s : lang (Chr p) s → ∃ c, s = String c "" ∧ p c = true.
Proof. inversion 1; subst; eauto. Qed.

Lemma lang_Chr_Seq_inv p r s :
  lang (Seq (Chr p) r) s → ∃ c s', s = String c s' ∧ p c = true ∧ lang r s'.
Proof.
  intros (s1 & s2 & -> & (c & -> & Hc)%lang_Chr_inv & H2)%lang_Seq_inv.
  by exists c, s2.
Qed.

Lemma lang_lit_Seq_inv ch r s :
  lang (Seq (lit ch) r) s → ∃ s', s = String ch s' ∧ lang r s'.
Proof.
  intros (c & s' & -> & Hc%Ascii.eqb_eq & H)%lang_Chr_Seq_inv.
  subst. eauto.
Qed.

Lemma search_time_re s : search time_re s = true ↔ holds_time s.
Proof.
  rewrite search_spec. split.
  - intros (before & m & after & -> & H). unfold time_re in H.
    apply lang_Seq_inv in H as (x & y & -> & Hx & Hy).
    apply lang_Chr_Seq_inv in Hx as (h1 & x' & -> & Hh1 & Hx).
    apply lang_Chr_inv in Hx as (h2 & -> & Hh2).
    apply lang_Seq_inv in Hy as (y1 & y2 & -> & Hy1 & _).
    apply lang_lit_Seq_inv in Hy1 as (y' & -> & Hy1).
    apply lang_Chr_Seq_inv in Hy1 as (m1 & y'' & -> & Hm1 & Hy1).
    apply lang_Chr_inv in Hy1 as (m2 & -> & Hm2).
    exists before, h1, h2, m1, m2, (y2 +:+ after).
    split_and!; [|done..]. rewrite ?app_assoc. reflexivity.
  - intros (before & h1 & h2 & m1 & m2 & after & -> & Hh1 & Hh2 & Hm1 & Hm2).
    exists before,
      (String h1 (String h2 (String ":" (String m1 (String m2 ""))))), after.
    split; [done|].
    change (String h1 (String h2 (String ":" (String m1 (String m2 "")))))
      with ((String h1 "" +:+ String h2 "") +:+
            ((String ":" "" +:+ (String m1 "" +:+ String m2 "")) +:+ "")).
    repeat first [apply lang_Seq | by apply lang_Chr
                 | apply lang_Alt_r, lang_Eps].
Qed.

(** What the second pattern finds, the first finds too. *)
Lemma search_date_time_re s :
  search date_time_re s = true → search time_re s = true.
Proof.
  rewrite search_time_re, search_spec.
  intros (before & m & after & -> & H). unfold date_time_re in H.
  apply lang_Seq_inv in H as (year & y & -> & _ & H).
  apply lang_lit_Seq_inv in H as (y1 & -> & H).
  apply lang_Chr_Seq_inv in H as (mo1 & y2 & -> & _ & H).
  apply lang_Chr_Seq_inv in H as (mo2 & y3 & -> & _ & H).
  apply lang_lit_Seq_inv in H as (y4 & -> & H).
  apply lang_Chr_Seq_inv in H as (d1 & y5 & -> & _ & H).
  apply lang_Chr_Seq_inv in H as (d2 & y6 & -> & _ & H).
  apply lang_lit_Seq_inv in H as (y7 & -> & H).
  apply lang_Chr_Seq_inv in H as (h1 & y8 & -> & Hh1 & H).
  apply lang_Chr_Seq_inv in H as (h2 & y9 & -> & Hh2 & H).
  apply lang_lit_Seq_inv in H as (y10 & -> & H).
  apply lang_Chr_Seq_inv in H as (m1 & y11 & -> & Hm1 & H).
  apply lang_Chr_Seq_inv in H as (m2 & y12 & -> & Hm2 & _).
  exists (before +:+ year +:+
          String "-" (String mo1 (String mo2 (String "-"
            (String d1 (String d2 (String " " ""))))))),
    h1, h2, m1, m2, (y12 +:+ after).
  split_and!; [|done..]. rewrite ?app_assoc. reflexivity.
Qed.

End ReFacts.

(** C5 on the code: [at_time_validate] accepts a text exactly when a time
    hh:mm occurs somewhere in it, whatever stands before and after; so it
    accepts 01-05 14:30, which is in neither of the two formats, and only
    refuses texts without any hh:mm in them, such as 2pm and 14-30. *)
Theorem at_time_validate_accepts obj value :
  (at_time_validate obj (Some value) = Ret (set_at_time (Some value) obj)
   ↔ holds_time value)
  ∧ (at_time_validate obj (Some value) = Raise (BadParameter at_time_message)
     ↔ ¬ holds_time value)
  ∧ at_time_validate obj (Some "01-05 14:30")
    = Ret (set_at_time (Some "01-05 14:30") obj)
  ∧ at_time_validate obj (Some "2pm") = Raise (BadParameter at_time_message)
  ∧ at_time_validate obj (Some "14-30") = Raise (BadParameter at_time_message)
  ∧ at_time_validate obj None = Ret (set_at_time None obj).
Proof.
  split_and!; try reflexivity.
  - rewrite <- ReFacts.search_time_re. unfold at_time_validate.
    destruct (Re.search time_re value) eqn:E1; simpl; [done|].
    destruct (Re.search date_time_re value) eqn:E2; simpl; [|done].
    apply ReFacts.search_date_time_re in E2. congruence.
  - rewrite <- ReFacts.search_time_re. unfold at_time_validate.
    destruct (Re.search time_re value) eqn:E1; simpl; [split; [done|tauto]|].
    destruct (Re.search date_time_re value) eqn:E2; simpl; [|done].
    apply ReFacts.search_date_time_re in E2. congruence.
Qed.

(** * Further properties *)

(** ** The validators, continued *)

Section ValidatorsMore.
Implicit Types obj : Obj.

(** X1: an option value with fewer than two elements is refused with the
    message that asks for two arguments. *)
Theorem write_validate_arity obj value :
  length value < 2 →
  write_validate obj value = Raise (BadParameter write_validate_arity_message).
Proof.
  intros H. unfold write_validate. rewrite bool_decide_eq_true_2.
  - destruct value as [|mode [|path value]]; [done..|]. simpl in H. lia.
  - intros ->. simpl in H. lia.
Qed.

(** X2: when [write_validate] returns, it has changed nothing but the key
    out, and out is either None or a pair whose mode is one of s, single,
    m and multiple in lower case: the only modes [write_out] will ever
    see. *)
Theorem write_validate_keeps obj value obj' :
  write_validate obj value = Ret obj' →
  obj_hosts obj' = obj_hosts obj ∧ obj_conn obj' = obj_conn obj ∧
  obj_at_time obj' = obj_at_time obj ∧
  (obj_out obj' = None ∨
   ∃ mode path, obj_out obj' = Some (mode, path) ∧
                mode ∈ ["s"; "single"; "m"; "multiple"] ∧
                value !! 1 = Some path).
Proof.
  unfold write_validate. case_bool_decide as Hd.
  - destruct (value !! 0) as [mode|] eqn:E0; [|done].
    destruct (value !! 1) as [path|] eqn:E1; [|done].
    case_bool_decide as Hm; [done|]. intros [= <-]. split_and!; [done..|].
    right. exists (Str.lower mode), path. split_and!; [done| |done].
    by destruct (decide (Str.lower mode ∈ ["s"; "single"; "m"; "multiple"])).
  - intros [= <-]. split_and!; [done..|]. by left.
Qed.

(** X3: the mode given on the command line decides, whatever its case,
    where [write_out] writes: an accepted s or single leaves the path as
    it is (one file for all devices), an accepted m or multiple puts the
    device name in front of the file name. *)
Theorem write_validate_then_destination obj mode path obj' ip :
  write_validate obj [mode; path] = Ret obj' →
  [mode; path] ≠ ["default"; "default"] →
  ∃ stored, obj_out obj' = Some (stored, path) ∧
    (Str.lower mode ∈ ["s"; "single"] → destination stored path ip = path) ∧
    (Str.lower mode ∈ ["m"; "multiple"] →
     destination stored path ip =
       PosixPath.join (PosixPath.split path).1
         (ip +:+ "_" +:+ (PosixPath.split path).2)).
Proof.
  intros H Hd. unfold write_validate in H.
  rewrite bool_decide_eq_true_2 in H by done. simpl in H.
  case_bool_decide as Hm; [done|]. injection H as <-.
  exists (Str.lower mode). split_and!; [done| |].
  - intros Hs. unfold destination. rewrite bool_decide_eq_false_2; [done|].
    intros Hx. apply list_elem_of_In in Hs, Hx. simpl in Hs, Hx.
    destruct Hs as [Hs|[Hs|[]]], Hx as [Hx|[Hx|[]]]; congruence.
  - intros Hs. unfold destination. by rewrite bool_decide_eq_true_2.
Qed.
End ValidatorsMore.

Lemma write_validate_arity_witness :
  write_validate two_hosts ["s"]
    = Raise (BadParameter write_validate_arity_message).
Proof. apply write_validate_arity. simpl. lia. Defined.

Lemma write_validate_keeps_witness :
  obj_hosts (set_out (Some ("m", "/tmp/out.txt")) two_hosts)
    = obj_hosts two_hosts.
Proof.
  apply (write_validate_keeps two_hosts ["M"; "/tmp/out.txt"]).
  vm_compute. reflexivity.
Defined.

Lemma write_validate_then_destination_witness :
  ∃ stored,
    obj_out (set_out (Some ("multiple", "/var/log/run.txt")) two_hosts)
      = Some (stored, "/var/log/run.txt") ∧
    (Str.lower "MULTIPLE" ∈ ["s"; "single"] →
     destination stored "/var/log/run.txt" "10.0.0.7" = "/var/log/run.txt") ∧
    (Str.lower "MULTIPLE" ∈ ["m"; "multiple"] →
     destination stored "/var/log/run.txt" "10.0.0.7" =
       PosixPath.join (PosixPath.split "/var/log/run.txt").1
         ("10.0.0.7" +:+ "_" +:+ (PosixPath.split "/var/log/run.txt").2)).
Proof.
  apply (write_validate_then_destination two_hosts "MULTIPLE"
           "/var/log/run.txt").
  - vm_compute. reflexivity.
  - discriminate.
Defined.

(** X4: the second pattern of [at_time_validate] never decides: the
    value is accepted exactly when the first pattern finds a match in
    it. *)
Theorem at_time_validate_first_pattern obj value :
  at_time_validate obj value =
    match value with
    | Some v =>
        if Re.search time_re v then Ret (set_at_time value obj)
        else Raise (BadParameter at_time_message)
    | None => Ret (set_at_time None obj)
    end.
Proof.
  destruct value as [v|]; [|done]. unfold at_time_validate.
  destruct (Re.search time_re v) eqn:E1; [done|].
  destruct (Re.search date_time_re v) eqn:E2; [|done].
  apply ReFacts.search_date_time_re in E2. congruence.
Qed.

(** ** The command-name resolver, continued *)

Section ResolverMore.
Context {Command : Type}.
Implicit Types g : Group Command.

Lemma startswith_refl s : Str.startswith s s = true.
Proof. apply StrFacts.startswith_spec. exists "". by rewrite StrFacts.app_nil_r. Qed.

Lemma candidates_elem g cmd_name x :
  x ∈ candidates g cmd_name ↔
  is_Some (commands g !! x) ∧ Str.startswith x cmd_name = true.
Proof.
  unfold candidates.
  by rewrite list_elem_of_filter, list_commands_elem, (comm and).
Qed.

(** [get_command] in terms of the candidates. *)
Lemma get_command_cases g cmd_name :
  get_command g cmd_name =
    match commands g !! cmd_name with
    | Some c => Ret (Some c)
    | None =>
        match candidates g cmd_name with
        | [] => Ret None
        | [name] => Ret (commands g !! name)
        | names => Raise (UsageError ("Command ambiguous, could be: " +:+
                                      Str.join ", " (Str.sorted names)))
        end
    end.
Proof.
  unfold get_command, Group_get_command. fold (candidates g cmd_name).
  destruct (commands g !! cmd_name); [done|].
  by destruct (candidates g cmd_name) as [|? [|]].
Qed.

(** X5: the command [get_command] returns is registered under a name
    that starts with the text it was given; and unless that text is the
    name itself, no other registered name starts with it. *)
Theorem get_command_sound g cmd_name c :
  get_command g cmd_name = Ret (Some c) →
  ∃ name, commands g !! name = Some c ∧
          Str.startswith name cmd_name = true ∧
          (name = cmd_name ∨
           ∀ other, is_Some (commands g !! other) →
                    Str.startswith other cmd_name = true → other = name).
Proof.
  rewrite get_command_cases.
  destruct (commands g !! cmd_name) as [c'|] eqn:E.
  - intros [= ->]. exists cmd_name. split_and!; [done|apply startswith_refl|by left].
  - destruct (candidates g cmd_name) as [|name [|]] eqn:Ec; [done| |done].
    intros [= Hc]. exists name. split_and!; [done| |].
    + assert (Hin : name ∈ candidates g cmd_name) by (rewrite Ec; left).
      by apply candidates_elem in Hin as [_ ?].
    + right. intros other Ho Hs.
      assert (Hin : other ∈ candidates g cmd_name) by by apply candidates_elem.
      rewrite Ec in Hin. by apply list_elem_of_singleton in Hin.
Qed.

(** X6: [get_command] returns None exactly when no registered name
    starts with the text it was given. *)
Theorem get_command_not_found g cmd_name :
  get_command g cmd_name = Ret None ↔
  ∀ name, is_Some (commands g !! name) → Str.startswith name cmd_name = false.
Proof.
  rewrite get_command_cases. split.
  - destruct (commands g !! cmd_name) as [c'|] eqn:E; [done|].
    destruct (candidates g cmd_name) as [|x [|]] eqn:Ec; [| |done].
    + intros _ name Hn. destruct (Str.startswith name cmd_name) eqn:Hs; [|done].
      assert (Hin : name ∈ candidates g cmd_name) by by apply candidates_elem.
      rewrite Ec in Hin. by apply elem_of_nil in Hin.
    + intros [= Hx].
      assert (Hin : x ∈ candidates g cmd_name) by (rewrite Ec; left).
      apply candidates_elem in Hin as [[? ?] _]. congruence.
  - intros H. destruct (commands g !! cmd_name) as [c'|] eqn:E.
    { specialize (H cmd_name). rewrite E, startswith_refl in H.
      by specialize (H (mk_is_Some _ _ eq_refl)). }
    destruct (candidates g cmd_name) as [|x l] eqn:Ec; [done|].
    assert (Hin : x ∈ candidates g cmd_name) by (rewrite Ec; left).
    apply candidates_elem in Hin as [Hx Hs]. rewrite (H x Hx) in Hs. done.
Qed.

(** X7: [get_command] fails the invocation exactly when the text is not
    itself a registered name and at least two registered names start with
    it. *)
Theorem get_command_ambiguous g cmd_name :
  (∃ e, get_command g cmd_name = Raise e) ↔
  commands g !! cmd_name = None ∧
  ∃ n1 n2, n1 ≠ n2 ∧
    is_Some (commands g !! n1) ∧ Str.startswith n1 cmd_name = true ∧
    is_Some (commands g !! n2) ∧ Str.startswith n2 cmd_name = true.
Proof.
  rewrite get_command_cases. split.
  - intros [e H]. destruct (commands g !! cmd_name) as [c'|] eqn:E; [done|].
    split; [done|].
    destruct (candidates g cmd_name) as [|x [|y l]] eqn:Ec; [done..|].
    assert (Hnd : NoDup (candidates g cmd_name))
      by apply NoDup_filter, list_commands_NoDup.
    assert (Hx : x ∈ candidates g cmd_name) by (rewrite Ec; left).
    assert (Hy : y ∈ candidates g cmd_name) by (rewrite Ec; right; left).
    apply candidates_elem in Hx as [? ?], Hy as [? ?].
    exists x, y. split_and!; try done.
    rewrite Ec in Hnd. apply NoDup_cons in Hnd as [Hnd _].
    intros ->. apply Hnd. left.
  - intros (E & n1 & n2 & Hne & H1 & S1 & H2 & S2). rewrite E.
    assert (I1 : n1 ∈ candidates g cmd_name) by by apply candidates_elem.
    assert (I2 : n2 ∈ candidates g cmd_name) by by apply candidates_elem.
    destruct (candidates g cmd_name) as [|x [|y l]]; [|exfalso|by eexists].
    + by apply elem_of_nil in I1.
    + apply list_elem_of_singleton in I1, I2. congruence.
Qed.
End ResolverMore.

Lemma get_command_sound_witness :
  ∃ name, commands three_commands !! name = Some 3 ∧
          Str.startswith name "h" = true ∧
          (name = "h" ∨
           ∀ other, is_Some (commands three_commands !! other) →
                    Str.startswith other "h" = true → other = name).
Proof. apply get_command_sound. vm_compute. reflexivity. Defined.

(** ** Files only grow *)

Section AppendOnly.
Context {Net : Type}.
Implicit Types w : World Net.

Lemma grown_refl fs : grown fs fs.
Proof. intros path old H. exists "". by rewrite StrFacts.app_nil_r. Qed.

Lemma grown_trans fs1 fs2 fs3 : grown fs1 fs2 → grown fs2 fs3 → grown fs1 fs3.
Proof.
  intros H12 H23 path old H.
  destruct (H12 _ _ H) as [m1 H1]. destruct (H23 _ _ H1) as [m2 H2].
  exists (m1 +:+ m2). by rewrite <- StrFacts.app_assoc.
Qed.

Lemma grown_append_to path text fs : grown fs (append_to path text fs).
Proof.
  intros p old H. unfold append_to. destruct (decide (path = p)) as [->|Hne].
  - exists text. by rewrite lookup_insert_eq, H.
  - exists "". by rewrite lookup_insert_ne, StrFacts.app_nil_r.
Qed.

(** What [write_out] leaves alone, and how it changes the files. *)
Lemma write_out_frame (input : Output) w :
  let w' := (write_out input w).2 in
  open_error w' = open_error w ∧ sessions w' = sessions w ∧
  net w' = net w ∧ mp_pool w' = mp_pool w ∧
  (files w' = files w ∨
   ∃ mode dest_file ip,
     input.1 = Some (mode, dest_file) ∧ device_name input.2 = Some ip ∧
     (write_out input w).1 = Ret tt ∧
     open_error w (destination mode dest_file ip) = None ∧
     files w' = append_to (destination mode dest_file ip) input.2 (files w)).
Proof.
  destruct input as [[[mode dest_file]|] output].
  - rewrite write_out_file. destruct (device_name output) as [ip|] eqn:D.
    + simpl. destruct (open_error w _) eqn:E; simpl.
      * split_and!; try done. by left.
      * split_and!; try done. right. by exists mode, dest_file, ip.
    + split_and!; try done. by left.
  - rewrite write_out_console. split_and!; try done. by left.
Qed.

(** X8: [write_out] never truncates, removes or rewrites a file: after
    the call, whatever it was given and however it ends, every file that
    existed is still there and starts with what it held. *)
Theorem write_out_append_only (input : Output) w :
  grown (files w) (files (write_out input w).2).
Proof.
  destruct (write_out_frame input w) as (_ & _ & _ & _ & [->|H]).
  - apply grown_refl.
  - destruct H as (mode & dest_file & ip & _ & _ & _ & _ & ->).
    apply grown_append_to.
Qed.

Lemma bind_grown {A B} (m : M Net A) (k : A → M Net B) :
  (∀ w, grown (files w) (files (m w).2)) →
  (∀ a w, grown (files w) (files (k a w).2)) →
  ∀ w, grown (files w) (files (bind m k w).2).
Proof.
  intros Hm Hk w. unfold bind. specialize (Hm w).
  destruct (m w) as [[a|e] w1]; [|done].
  eapply grown_trans; [exact Hm|apply Hk].
Qed.

Lemma for_each_grown {A} (l : list A) (body : A → M Net unit) :
  (∀ a w, grown (files w) (files (body a w).2)) →
  ∀ w, grown (files w) (files (for_each l body w).2).
Proof.
  intros Hb. induction l as [|x l IH]; intros w.
  - apply grown_refl.
  - simpl. apply bind_grown; [apply Hb|]. intros _. apply IH.
Qed.

Lemma map_m_grown {A B} (f : A → M Net B) (l : list A) :
  (∀ a w, grown (files w) (files (f a w).2)) →
  ∀ w, grown (files w) (files (map_m f l w).2).
Proof.
  intros Hf. induction l as [|x l IH]; intros w.
  - apply grown_refl.
  - simpl. apply bind_grown; [apply Hf|]. intros y.
    apply bind_grown; [apply IH|]. intros ys w'. apply grown_refl.
Qed.

Variable cpu_count : nat.
Variable wrap_open_connection : OpenArgs → Net → Output * Net.
Variable arrival : list OpenArgs → list OpenArgs.

Lemma open_connection_grown pl a w :
  grown (files w) (files (open_connection wrap_open_connection pl a w).2).
Proof.
  unfold open_connection. destruct (wrap_open_connection a (net w)).
  apply grown_refl.
Qed.

Lemma join_grown w :
  grown (files w) (files (join wrap_open_connection arrival w).2).
Proof.
  unfold join. destruct (mp_pool w) as [p|]; [|apply grown_refl].
  unfold run_tasks. revert w.
  apply bind_grown; [apply map_m_grown, open_connection_grown|].
  intros results. apply bind_grown.
  - apply for_each_grown. intros r w. apply write_out_append_only.
  - intros _ w. apply grown_refl.
Qed.

(** X9: [commit] and [compare] never truncate, remove or rewrite a
    file, whatever the devices answer, in whatever order the tasks
    complete and however the call ends. *)
Theorem handlers_append_only ctx commands blank check sync comment confirm
    at_time w :
  grown (files w)
    (files (commit cpu_count wrap_open_connection arrival ctx commands blank
              check sync comment confirm at_time w).2)
  ∧ grown (files w)
      (files (compare cpu_count wrap_open_connection arrival ctx commands w).2).
Proof.
  split.
  - unfold commit.
    destruct (negb blank && String.eqb commands commit_commands_default);
      [apply grown_refl|].
    revert w. apply bind_grown; [intros w; apply grown_refl|]. intros _.
    apply bind_grown.
    + apply for_each_grown. intros ip.
      apply bind_grown; [apply open_connection_grown|].
      intros r w. apply write_out_append_only.
    + intros _. apply bind_grown; [intros w; apply grown_refl|].
      intros _ w. apply join_grown.
  - unfold compare. revert w.
    apply bind_grown; [intros w; apply grown_refl|]. intros _.
    apply bind_grown.
    + apply for_each_grown. intros ip w. apply grown_refl.
    + intros _. apply bind_grown; [intros w; apply grown_refl|].
      intros _ w. apply join_grown.
Qed.
End AppendOnly.

(** ** What [compare] writes *)

Lemma write_out_frame_list {Net} (rs : list Output) (w w2 : World Net) :
  for_each rs write_out w = (Ret tt, w2) →
  open_error w2 = open_error w ∧ sessions w2 = sessions w ∧
  net w2 = net w ∧ mp_pool w2 = mp_pool w.
Proof.
  revert w. induction rs as [|r rs IH]; intros w.
  - by intros [= <-].
  - simpl. unfold bind.
    destruct (write_out_frame r w) as (O & S & N & P & _).
    destruct (write_out r w) as [[[]|e] w1]; [|done].
    intros H%IH. simpl in *. destruct H as (? & ? & ? & ?).
    split_and!; congruence.
Qed.







Section CompareRouting.
Context {Net : Type}.
Variable cpu_count : nat.
Variable wrap_open_connection : OpenArgs → Net → Output * Net.
Variable arrival : list OpenArgs → list OpenArgs.
Hypothesis arrival_perm : ∀ l, arrival l ≡ₚ l.
Implicit Types w : World Net.

(** The workers change the session log and the network only; each
    session holds what the device returned for its arguments. *)
Lemma workers_sessions l w :
  ∃ w1 new,
    map_m (open_connection wrap_open_connection PoolWorker) l w
      = (Ret (map returned new), w1) ∧
    sessions w1 = sessions w ++ new ∧ map args new = l ∧
    Forall (λ s, place s = PoolWorker ∧
                 ∃ n, returned s = (wrap_open_connection (args s) n).1) new ∧
    console w1 = console w ∧ files w1 = files w ∧
    open_error w1 = open_error w ∧ mp_pool w1 = mp_pool w.
Proof.
  revert w. induction l as [|a l IH]; intros w.
  - exists w, []. by rewrite app_nil_r.
  - destruct (open_connection_spec wrap_open_connection PoolWorker a w)
      as (w0 & E0 & S0 & P0 & C0 & F0).
    assert (O0 : open_error w0 = open_error w).
    { revert E0. unfold open_connection.
      destruct (wrap_open_connection a (net w)). by intros [= <-]. }
    destruct (IH w0) as (w1 & new & E1 & S1 & A1 & R1 & C1 & F1 & O1 & P1).
    exists w1, ({| place := PoolWorker; args := a;
                   returned := (wrap_open_connection a (net w)).1 |} :: new).
    split_and!; try congruence.
    + simpl. erewrite bind_ret; [|exact E0].
      erewrite bind_ret; [|exact E1]. done.
    + rewrite S1, S0. by rewrite <- app_assoc.
    + simpl. by rewrite A1.
    + constructor; [|done]. simpl. eauto.
Qed.

(** [compare] is the workers' round followed by the callbacks' round. *)
Lemma compare_rounds ctx commands w :
  ∃ w1 new,
    sessions w1 = sessions w ++ new ∧
    map args new ≡ₚ map (compare_args ctx commands) (obj_hosts ctx) ∧
    Forall (λ s, place s = PoolWorker ∧
                 ∃ n, returned s = (wrap_open_connection (args s) n).1) new ∧
    console w1 = console w ∧ files w1 = files w ∧
    open_error w1 = open_error w ∧
    ∀ w2, for_each (map returned new) write_out w1 = (Ret tt, w2) →
      compare cpu_count wrap_open_connection arrival ctx commands w
      = (Ret tt,
         with_pool (Some (finished_pool (cpu_count * 2)
                            (map (compare_args ctx commands) (obj_hosts ctx))))
           w2).
Proof.
  set (w0 := with_pool (Some {| processes := cpu_count * 2; tasks := [];
                                closed := false; joined := false |}) w).
  destruct (submit_loop (compare_args ctx commands) (obj_hosts ctx) w0 _ eq_refl)
    as (wa & Ea & Pa & Sa & Ca & Fa & Na & Oa).
  simpl in Pa.
  pose proof (close_spec wa _ Pa) as Eb. simpl in Eb.
  set (wb := with_pool (Some {| processes := cpu_count * 2;
             tasks := map (compare_args ctx commands) (obj_hosts ctx);
             closed := true; joined := false |}) wa) in Eb.
  destruct (workers_sessions
              (arrival (map (compare_args ctx commands) (obj_hosts ctx))) wb)
    as (w1 & new & E1 & S1 & A1 & R1 & C1 & F1 & O1 & P1).
  exists w1, new. split_and!.
  - rewrite S1. simpl. by rewrite Sa.
  - by rewrite A1, arrival_perm.
  - done.
  - rewrite C1. simpl. by rewrite Ca.
  - rewrite F1. simpl. by rewrite Fa.
  - rewrite O1. simpl. by rewrite Oa.
  - intros w2 E2. unfold compare.
    erewrite (bind_ret _ _ w tt w0); [|done].
    erewrite (bind_ret _ _ w0 tt wa); [|exact Ea].
    erewrite (bind_ret _ _ wa tt wb); [|exact Eb].
    unfold join. change (mp_pool wb) with (Some {| processes := cpu_count * 2;
             tasks := map (compare_args ctx commands) (obj_hosts ctx);
             closed := true; joined := false |}).
    unfold run_tasks. simpl tasks.
    erewrite bind_ret; [|exact E1]. erewrite bind_ret; [|exact E2].
    destruct (write_out_frame_list (map returned new) w1 w2 E2) as (_ & _ & _ & Hp).
    rewrite Hp, P1. reflexivity.
Qed.

(** The callbacks on outputs for the console. *)
Lemma callbacks_console (texts : list string) w :
  ∃ w2, for_each (map (pair None) texts) write_out w = (Ret tt, w2) ∧
        console w2 = console w ++ map (λ t, Echo t true) texts ∧
        files w2 = files w.
Proof.
  revert w. induction texts as [|t texts IH]; intros w.
  - exists w. by rewrite app_nil_r.
  - destruct (IH (with_console (λ c, c ++ [Echo t true]) w))
      as (w2 & E & C & F).
    exists w2. split_and!.
    + simpl. erewrite bind_ret; [exact E|]. apply write_out_console.
    + rewrite C. simpl. by rewrite <- app_assoc.
    + by rewrite F.
Qed.


Lemma session_args ctx commands (new : list Session) s :
  map args new ≡ₚ map (compare_args ctx commands) (obj_hosts ctx) →
  s ∈ new →
  ∃ ip, ip ∈ obj_hosts ctx ∧ args s = compare_args ctx commands ip.
Proof.
  intros Hp Hs.
  assert (Hin : args s ∈ map args new) by (apply list_elem_of_fmap; eauto).
  rewrite Hp in Hin. apply list_elem_of_fmap in Hin as (ip & -> & Hip). eauto.
Qed.

Lemma session_hosts ctx commands (new : list Session) :
  map args new ≡ₚ map (compare_args ctx commands) (obj_hosts ctx) →
  map (λ s, oa_ip (args s)) new ≡ₚ obj_hosts ctx.
Proof.
  intros Hp. rewrite <- (map_map args oa_ip), Hp, map_map. simpl.
  by rewrite map_id.
Qed.

(** X10: without the -w option (out is None) and with devices whose
    answers come back for the destination they were given, [compare]
    prints every answer on the console, one per host and in the order in
    which the tasks complete, and writes to no file. *)
Theorem compare_console ctx commands w :
  (∀ a n, (wrap_open_connection a n).1.1 = oa_write a) →
  obj_out ctx = None →
  ∃ w' new,
    compare cpu_count wrap_open_connection arrival ctx commands w
      = (Ret tt, w') ∧
    sessions w' = sessions w ++ new ∧
    map (λ s, oa_ip (args s)) new ≡ₚ obj_hosts ctx ∧
    console w' = console w ++ map (λ s, Echo (returned s).2 true) new ∧
    files w' = files w.
Proof.
  intros Hw Hout.
  destruct (compare_rounds ctx commands w)
    as (w1 & new & S1 & A1 & R1 & C1 & F1 & O1 & Hrun).
  assert (Hr : map returned new = map (pair None) (map (λ s, (returned s).2) new)).
  { rewrite map_map. apply map_ext_in. intros s Hs%list_elem_of_In.
    destruct (session_args _ _ _ _ A1 Hs) as (ip & _ & Ha).
    eapply Forall_forall in R1 as [_ [n Hn]]; [|exact Hs].
    specialize (Hw (args s) n). rewrite <- Hn, Ha in Hw. simpl in Hw.
    rewrite Hout in Hw. destruct (returned s) as [d t]. simpl in *. by subst. }
  destruct (callbacks_console (map (λ s, (returned s).2) new) w1)
    as (w2 & E2 & C2 & F2).
  rewrite <- Hr in E2.
  exists (with_pool (Some (finished_pool (cpu_count * 2)
            (map (compare_args ctx commands) (obj_hosts ctx)))) w2), new.
  split_and!.
  - by apply Hrun.
  - simpl. destruct (write_out_frame_list _ _ _ E2) as (_ & -> & _). done.
  - by eapply session_hosts.
  - simpl. by rewrite C2, C1, map_map.
  - simpl. by rewrite F2, F1.
Qed.



End CompareRouting.


Lemma compare_console_witness :
  ∃ w' new,
    compare 4 reporting_device reverse (set_out None two_hosts)
      "set system host-name lab" quiet_world = (Ret tt, w') ∧
    sessions w' = sessions quiet_world ++ new ∧
    map (λ s, oa_ip (args s)) new ≡ₚ ["10.0.0.1"; "10.0.0.2"] ∧
    console w' = console quiet_world ++ map (λ s, Echo (returned s).2 true) new ∧
    files w' = files quiet_world.
Proof.
  apply (compare_console 4 reporting_device reverse reverse_Permutation
           (set_out None two_hosts)).
  - intros a n. reflexivity.
  - reflexivity.
Defined.



(** ** What [commit] does *)

Section CommitMore.
Context {Net : Type}.
Variable cpu_count : nat.
Variable wrap_open_connection : OpenArgs → Net → Output * Net.
Variable arrival : list OpenArgs → list OpenArgs.
Hypothesis arrival_perm : ∀ l, arrival l ≡ₚ l.
Implicit Types w : World Net.

Lemma bind_raise {A B} (m : M Net A) (k : A → M Net B) w e w1 :
  m w = (Raise e, w1) → bind m k w = (Raise e, w1).
Proof. unfold bind. by intros ->. Qed.

Lemma commit_check commands blank :
  blank = true ∨ commands ≠ commit_commands_default →
  negb blank && String.eqb commands commit_commands_default = false.
Proof.
  intros [->|Hc]; [done|].
  apply String.eqb_neq in Hc. rewrite Hc. by destruct blank.
Qed.

(** The loop of [commit] on outputs that can be routed: the sessions in
    the order of the hosts, each followed by its [write_out]. *)
Lemma serial_loop_args (A : string → OpenArgs) hosts w :
  (∀ a n, routable (wrap_open_connection a n).1) →
  ∃ w' new,
    for_each hosts
      (λ ip, r <- open_connection wrap_open_connection MainProcess (A ip) ;;
             write_out r) w = (Ret tt, w') ∧
    sessions w' = sessions w ++ new ∧
    map args new = map A hosts ∧
    Forall (λ s, place s = MainProcess ∧
                 ∃ n, returned s = (wrap_open_connection (args s) n).1) new ∧
    mp_pool w' = mp_pool w.
Proof.
  intros Hr. revert w. induction hosts as [|ip hosts IH]; intros w.
  - exists w, []. by rewrite app_nil_r.
  - destruct (open_connection_spec wrap_open_connection MainProcess (A ip) w)
      as (w1 & E1 & S1 & P1 & _).
    destruct (write_out_routable (wrap_open_connection (A ip) (net w)).1 w1)
      as (w2 & E2 & S2 & P2 & _); [apply Hr|].
    destruct (IH w2) as (w3 & new & E3 & S3 & T3 & R3 & P3).
    exists w3, ({| place := MainProcess; args := A ip;
                   returned := (wrap_open_connection (A ip) (net w)).1 |} :: new).
    split_and!.
    + simpl. erewrite bind_ret; [exact E3|].
      erewrite bind_ret; [exact E2|exact E1].
    + rewrite S3, S2, S1. by rewrite <- app_assoc.
    + simpl. by rewrite T3.
    + constructor; [|done]. simpl. eauto.
    + congruence.
Qed.

(** X13: the sessions [commit] opens carry, host for host and in the
    order of the hosts, what [main] and the validators put into the
    context: the user name, password, port and timeouts given to [main],
    the destination and the time found in the context; the at_time
    argument of [commit] itself is not used.  All of them are opened by
    the calling process. *)
Theorem commit_sessions_carry_context clean_lines obj host password port
    session_timeout connect_timeout username commands blank check sync
    comment confirm at_time w :
  (∀ a n, routable (wrap_open_connection a n).1) →
  blank = true ∨ commands ≠ commit_commands_default →
  ∃ w' new,
    commit cpu_count wrap_open_connection arrival
      (main clean_lines obj host password port session_timeout
         connect_timeout username)
      commands blank check sync comment confirm at_time w = (Ret tt, w') ∧
    sessions w' = sessions w ++ new ∧
    Forall (λ s, place s = MainProcess) new ∧
    map args new =
      map (λ ip, {| oa_ip := ip; oa_username := username;
                    oa_password := password;
                    oa_function := wrap_commit commands check sync comment
                                     confirm (obj_at_time obj) blank;
                    oa_write := obj_out obj;
                    oa_connect_timeout := connect_timeout;
                    oa_session_timeout := session_timeout;
                    oa_port := port |})
          (clean_lines host).
Proof.
  intros Hr Hc. unfold commit. rewrite (commit_check _ _ Hc).
  set (ctx := main clean_lines obj host password port session_timeout
                connect_timeout username).
  set (w0 := with_pool (Some {| processes := cpu_count * 2; tasks := [];
                                closed := false; joined := false |}) w).
  destruct (serial_loop_args
              (commit_args ctx commands check sync comment confirm blank)
              (obj_hosts ctx) w0 Hr)
    as (w1 & new & E1 & S1 & A1 & R1 & P1).
  pose proof (close_spec w1 _ P1) as E2. simpl in E2.
  match type of E2 with _ = (_, ?w2) =>
    destruct (join_runs wrap_open_connection arrival Hr w2 _ eq_refl)
      as (w3 & new3 & E3 & S3 & A3 & _ & P3)
  end.
  simpl in A3.
  assert (arrival [] = []) as Hnil by apply Permutation_nil_r, arrival_perm.
  rewrite Hnil in A3. apply map_eq_nil in A3. subst new3.
  exists w3, new. split_and!.
  - erewrite (bind_ret _ _ w tt w0); [|done].
    erewrite (bind_ret _ _ w0 tt w1); [|exact E1].
    erewrite (bind_ret _ _ w1 tt); [|exact E2]. exact E3.
  - rewrite S3, app_nil_r. exact S1.
  - eapply Forall_impl; [exact R1|]. by intros s [? _].
  - exact A1.
Qed.

(** X14: when the first host's output is one for a file and has no
    'device: ' in it, [commit] ends with the IndexError of [write_out]
    after that one session: the hosts that follow are not contacted,
    nothing is printed or written, and the pool stays as it was created,
    neither closed nor joined. *)
Theorem commit_stops_at_unroutable ctx commands blank check sync comment
    confirm at_time ip rest mode dest_file text w :
  blank = true ∨ commands ≠ commit_commands_default →
  obj_hosts ctx = ip :: rest →
  (wrap_open_connection
     (commit_args ctx commands check sync comment confirm blank ip) (net w)).1
    = (Some (mode, dest_file), text) →
  ¬ Str.contains "device: " text →
  ∃ w',
    commit cpu_count wrap_open_connection arrival ctx commands blank check
      sync comment confirm at_time w = (Raise IndexError, w') ∧
    sessions w' = sessions w ++
      [{| place := MainProcess;
          args := commit_args ctx commands check sync comment confirm blank ip;
          returned := (Some (mode, dest_file), text) |}] ∧
    console w' = console w ∧ files w' = files w ∧
    mp_pool w' = Some {| processes := cpu_count * 2; tasks := [];
                         closed := false; joined := false |}.
Proof.
  intros Hc Hh Hr Hm. unfold commit. rewrite (commit_check _ _ Hc), Hh.
  set (w0 := with_pool (Some {| processes := cpu_count * 2; tasks := [];
                                closed := false; joined := false |}) w).
  destruct (open_connection_spec wrap_open_connection MainProcess
              (commit_args ctx commands check sync comment confirm blank ip) w0)
    as (w1 & E1 & S1 & P1 & C1 & F1).
  change (net w0) with (net w) in E1, S1. rewrite Hr in E1, S1.
  exists w1. split_and!; try done.
  erewrite (bind_ret _ _ w tt w0); [|done].
  apply bind_raise. simpl for_each. apply bind_raise.
  erewrite bind_ret; [|exact E1].
  rewrite write_out_file.
  by apply device_name_None in Hm as ->.
Qed.

(** Joining a pool that was given nothing changes only the pool. *)
Lemma join_idle w p :
  mp_pool w = Some p → tasks p = [] →
  join wrap_open_connection arrival w
  = (Ret tt, with_pool (Some {| processes := processes p; tasks := tasks p;
                                closed := closed p; joined := true |}) w).
Proof.
  intros Hp Ht. unfold join. rewrite Hp. unfold run_tasks. rewrite Ht.
  assert (arrival [] = []) as -> by apply Permutation_nil_r, arrival_perm.
  unfold bind. simpl. rewrite Hp. simpl. by rewrite Ht.
Qed.

(** The loop of [commit] when the outputs are for the console. *)
Lemma serial_loop_console (A : string → OpenArgs) hosts w :
  (∀ ip n, (wrap_open_connection (A ip) n).1.1 = None) →
  ∃ w' new,
    for_each hosts
      (λ ip, r <- open_connection wrap_open_connection MainProcess (A ip) ;;
             write_out r) w = (Ret tt, w') ∧
    sessions w' = sessions w ++ new ∧
    map args new = map A hosts ∧
    console w' = console w ++ map (λ s, Echo (returned s).2 true) new ∧
    files w' = files w ∧ mp_pool w' = mp_pool w.
Proof.
  intros Hn. revert w. induction hosts as [|ip hosts IH]; intros w.
  - exists w, []. by rewrite !app_nil_r.
  - destruct (open_connection_spec wrap_open_connection MainProcess (A ip) w)
      as (w1 & E1 & S1 & P1 & C1 & F1).
    specialize (Hn ip (net w)) as Hd.
    destruct (wrap_open_connection (A ip) (net w)).1 as [d text] eqn:Er.
    simpl in Hd. subst d.
    destruct (IH (with_console (λ c, c ++ [Echo text true]) w1))
      as (w3 & new & E3 & S3 & T3 & C3 & F3 & P3).
    exists w3, ({| place := MainProcess; args := A ip;
                   returned := (None, text) |} :: new).
    split_and!.
    + simpl. erewrite bind_ret; [exact E3|].
      erewrite bind_ret; [|exact E1]. apply write_out_console.
    + rewrite S3. simpl. rewrite S1. by rewrite <- app_assoc.
    + simpl. by rewrite T3.
    + rewrite C3. simpl. rewrite C1. by rewrite <- app_assoc.
    + rewrite F3. simpl. done.
    + rewrite P3. simpl. done.
Qed.

(** X15: without the -w option (out is None) and with devices whose
    answers come back for the destination they were given, [commit]
    prints the answers on the console in the order of the hosts, one per
    host, and writes to no file. *)
Theorem commit_console ctx commands blank check sync comment confirm
    at_time w :
  (∀ a n, (wrap_open_connection a n).1.1 = oa_write a) →
  obj_out ctx = None →
  blank = true ∨ commands ≠ commit_commands_default →
  ∃ w' new,
    commit cpu_count wrap_open_connection arrival ctx commands blank check
      sync comment confirm at_time w = (Ret tt, w') ∧
    sessions w' = sessions w ++ new ∧
    map (λ s, oa_ip (args s)) new = obj_hosts ctx ∧
    console w' = console w ++ map (λ s, Echo (returned s).2 true) new ∧
    files w' = files w.
Proof.
  intros Hw Hout Hc. unfold commit. rewrite (commit_check _ _ Hc).
  set (w0 := with_pool (Some {| processes := cpu_count * 2; tasks := [];
                                closed := false; joined := false |}) w).
  destruct (serial_loop_console
              (commit_args ctx commands check sync comment confirm blank)
              (obj_hosts ctx) w0)
    as (w1 & new & E1 & S1 & A1 & C1 & F1 & P1).
  { intros ip n. rewrite Hw. simpl. exact Hout. }
  pose proof (close_spec w1 _ P1) as E2. simpl in E2.
  match type of E2 with _ = (_, ?w2) =>
    pose proof (join_idle w2 _ eq_refl eq_refl) as E3
  end.
  eexists _, new. split_and!.
  - erewrite (bind_ret _ _ w tt w0); [|done].
    erewrite (bind_ret _ _ w0 tt w1); [|exact E1].
    erewrite (bind_ret _ _ w1 tt); [|exact E2]. exact E3.
  - simpl. exact S1.
  - rewrite <- (map_map args oa_ip), A1, map_map. simpl. apply map_id.
  - simpl. exact C1.
  - simpl. exact F1.
Qed.

(** X16: [compare] creates a pool of twice the number of processors,
    hands it one task per host, in the order of the hosts and with the
    settings of the context, and returns after the pool was closed and
    joined; the sessions are those tasks, each run once by a worker of
    the pool. *)
Theorem compare_pool ctx commands w :
  (∀ a n, routable (wrap_open_connection a n).1) →
  ∃ w' new,
    compare cpu_count wrap_open_connection arrival ctx commands w
      = (Ret tt, w') ∧
    mp_pool w' = Some (finished_pool (cpu_count * 2)
                         (map (compare_args ctx commands) (obj_hosts ctx))) ∧
    sessions w' = sessions w ++ new ∧
    map args new ≡ₚ map (compare_args ctx commands) (obj_hosts ctx) ∧
    Forall (λ s, place s = PoolWorker) new.
Proof.
  intros Hr.
  destruct (compare_rounds cpu_count wrap_open_connection arrival arrival_perm
              ctx commands w)
    as (w1 & new & S1 & A1 & R1 & C1 & F1 & O1 & Hrun).
  destruct (callbacks_run (map returned new) w1) as (w2 & E2 & S2 & P2).
  { apply Forall_fmap. eapply Forall_impl; [exact R1|].
    intros s [_ [n Hn]]. simpl. rewrite Hn. apply Hr. }
  eexists _, new. split_and!.
  - by apply Hrun.
  - done.
  - simpl. by rewrite S2.
  - done.
  - eapply Forall_impl; [exact R1|]. by intros s [? _].
Qed.
End CommitMore.

Lemma commit_sessions_carry_context_witness :
  ∃ w' new,
    commit 4 reporting_device reverse
      (main (λ host, ["10.0.0.1"; "10.0.0.2"])
         (set_out (Some ("m", "/tmp/out.txt")) two_hosts)
         "10.0.0.1,10.0.0.2" "secret" 830 600 10 "operator")
      "set system host-name lab" false true false None None (Some "23:59")
      quiet_world = (Ret tt, w') ∧
    sessions w' = sessions quiet_world ++ new ∧
    Forall (λ s, place s = MainProcess) new ∧
    map args new =
      map (λ ip, {| oa_ip := ip; oa_username := "operator";
                    oa_password := "secret";
                    oa_function := wrap_commit "set system host-name lab"
                                     true false None None None false;
                    oa_write := Some ("m", "/tmp/out.txt");
                    oa_connect_timeout := 10;
                    oa_session_timeout := 600;
                    oa_port := 830 |})
          ["10.0.0.1"; "10.0.0.2"].
Proof.
  apply (commit_sessions_carry_context 4 reporting_device reverse
           reverse_Permutation (λ host, ["10.0.0.1"; "10.0.0.2"])
           (set_out (Some ("m", "/tmp/out.txt")) two_hosts)).
  - apply reporting_device_routable.
  - right. vm_compute. discriminate.
Defined.

Lemma commit_stops_at_unroutable_witness :
  ∃ w',
    commit 4 (λ a n, ((oa_write a, "Commit complete."), n)) reverse two_hosts
      "set system host-name lab" false false false None None None quiet_world
      = (Raise IndexError, w') ∧
    sessions w' = sessions quiet_world ++
      [{| place := MainProcess;
          args := commit_args two_hosts "set system host-name lab" false false
                    None None false "10.0.0.1";
          returned := (Some ("m", "/tmp/out.txt"), "Commit complete.") |}] ∧
    console w' = console quiet_world ∧ files w' = files quiet_world ∧
    mp_pool w' = Some {| processes := 4 * 2; tasks := [];
                         closed := false; joined := false |}.
Proof.
  apply (commit_stops_at_unroutable 4 (λ a n, ((oa_write a, "Commit complete."), n))
           reverse two_hosts "set system host-name lab" false false false
           None None None "10.0.0.1" ["10.0.0.2"]).
  - right. vm_compute. discriminate.
  - reflexivity.
  - reflexivity.
  - apply StrFacts.partition_None. vm_compute. reflexivity.
Defined.

Lemma commit_console_witness :
  ∃ w' new,
    commit 4 reporting_device reverse (set_out None two_hosts)
      "set system host-name lab" false false false None None None quiet_world
      = (Ret tt, w') ∧
    sessions w' = sessions quiet_world ++ new ∧
    map (λ s, oa_ip (args s)) new = ["10.0.0.1"; "10.0.0.2"] ∧
    console w' = console quiet_world ++ map (λ s, Echo (returned s).2 true) new ∧
    files w' = files quiet_world.
Proof.
  apply (commit_console 4 reporting_device reverse reverse_Permutation
           (set_out None two_hosts)).
  - intros a n. reflexivity.
  - reflexivity.
  - right. vm_compute. discriminate.
Defined.

Lemma compare_pool_witness :
  ∃ w' new,
    compare 4 reporting_device reverse two_hosts "set system host-name lab"
      quiet_world = (Ret tt, w') ∧
    mp_pool w' = Some (finished_pool (4 * 2)
                         (map (compare_args two_hosts "set system host-name lab")
                            ["10.0.0.1"; "10.0.0.2"])) ∧
    sessions w' = sessions quiet_world ++ new ∧
    map args new ≡ₚ map (compare_args two_hosts "set system host-name lab")
                      ["10.0.0.1"; "10.0.0.2"] ∧
    Forall (λ s, place s = PoolWorker) new.
Proof.
  apply (compare_pool 4 reporting_device reverse reverse_Permutation).
  apply reporting_device_routable.
Defined.

(** ** The device name, continued *)

Section DeviceNameMore.
Import Str StrFacts.

Lemma upto_char_mem ch s : mem ch (upto (String ch "") s) = false.
Proof.
  induction s as [|c s IH]; [done|].
  destruct (Ascii.eqb ch c) eqn:E.
  - unfold upto. simpl. by rewrite E.
  - rewrite upto_cons by (simpl; by rewrite E).
    simpl. by rewrite Ascii.eqb_sym, E, IH.
Qed.

Lemma mem_lstrip ch s : mem ch (lstrip s) = true → mem ch s = true.
Proof.
  induction s as [|c s IH]; [done|]. simpl.
  destruct (is_space c); [|done].
  intros H%IH. by rewrite H, orb_true_r.
Qed.

Lemma mem_rstrip ch s : mem ch (rstrip s) = true → mem ch s = true.
Proof.
  induction s as [|c s IH]; [done|]. simpl.
  destruct (rstrip s) as [|c' r].
  - destruct (is_space c); [done|]. simpl. rewrite orb_false_r.
    by intros ->.
  - simpl. intros [->|H]%orb_prop; [done|].
    simpl in IH. by rewrite IH, orb_true_r.
Qed.

Lemma rstrip_rstrip s : rstrip (rstrip s) = rstrip s.
Proof.
  induction s as [|c s IH]; [done|]. simpl.
  destruct (rstrip s) as [|c' r] eqn:R.
  - destruct (is_space c) eqn:E; [done|]. simpl. by rewrite E.
  - change (rstrip (String c (String c' r)))
      with (match rstrip (String c' r) with
            | "" => if is_space c then "" else String c ""
            | r0 => String c r0
            end).
    by rewrite IH.
Qed.

Lemma lstrip_head s :
  lstrip s = "" ∨ ∃ c t, lstrip s = String c t ∧ is_space c = false.
Proof.
  induction s as [|c s IH]; [by left|]. simpl.
  destruct (is_space c) eqn:E; [done|]. right. eauto.
Qed.

Lemma lstrip_strip s : lstrip (strip s) = strip s.
Proof.
  unfold strip. destruct (lstrip_head s) as [->|(c & t & -> & E)]; [done|].
  simpl. destruct (rstrip t) as [|c' r]; rewrite ?E; simpl; by rewrite E.
Qed.

(** X17: the device name [write_out] reads out of an output never holds a
    line break and has no white space at its ends. *)
Theorem device_name_clean output ip :
  device_name output = Some ip →
  mem "010" ip = false ∧ lstrip ip = ip ∧ rstrip ip = ip.
Proof.
  intros H.
  destruct (partition "device: " output) as [[pre rest]|] eqn:P.
  - rewrite (device_name_Some _ _ _ P) in H. injection H as <-.
    split_and!.
    + destruct (mem "010" (strip _)) eqn:M; [|done].
      apply mem_rstrip, mem_lstrip in M. by rewrite upto_char_mem in M.
    + apply lstrip_strip.
    + apply rstrip_rstrip.
  - apply partition_None, device_name_None in P. congruence.
Qed.
End DeviceNameMore.

Lemma device_name_clean_witness :
  Str.mem "010" "10.0.0.2" = false ∧ Str.lstrip "10.0.0.2" = "10.0.0.2" ∧
  Str.rstrip "10.0.0.2" = "10.0.0.2".
Proof.
  apply (device_name_clean
           ("Results from device:   10.0.0.2  " +:+ String "010" "done")).
  vm_compute. reflexivity.
Defined.
